(** * json-viewer: path addressing, search indexing, similarity toggling
      and result navigation of [src/App.tsx], as a shallow embedding.

    Modelling conventions.
    - A JavaScript string is a Rocq [string]; the characters in scope are
      the ASCII ones, so [toLowerCase] maps [A-Z] to [a-z] and [trim]
      removes the ASCII white space characters.
    - The parsed document ([parsedJson : any]) is a [json] value; [JNull]
      is JavaScript's [null], which the component also uses for "no
      document".  A runtime value that may be [undefined] is an
      [option json] with [None] for [undefined].
    - A JSON number is abstracted to an integer: the code in scope only
      reads a number for its truthiness.
    - An object is the list of its entries in the order [Object.entries]
      enumerates them; an array is the list of its elements.
    - Property access [current[part]] finds the own properties of JSON
      data (object keys, array and string indices, [length]) and, for a
      name the data does not hold, follows the prototype chain: the
      members of [Object.prototype] are listed, and a read that is answered
      by a built-in prototype ends in the outcome [Builtin], whose value is
      decided by the built-in objects of the runtime and is not modelled.
    - [expandedSections : Record<string, boolean>] is a [gmap string bool]
      of its own entries; a read [expandedSections[path]] that finds no
      own entry falls back on [Object.prototype], an assignment
      [updates[path] = b] to the key [__proto__] stores nothing, and the
      object spread [{...prev, ...updates}] is the left-biased union
      [updates ∪ prev]. *)

From Stdlib Require Import ZArith List Ascii String DecimalString DecimalNat.
From stdpp Require Import gmap strings list fin_maps.
Import ListNotations.
Open Scope string_scope.
Open Scope list_scope.

(* ===================================================================== *)
(** ** JavaScript string primitives                                       *)
(* ===================================================================== *)

Module JS.

Definition lower_char (c : ascii) : ascii :=
  let n := nat_of_ascii c in
  if (65 <=? n)%nat && (n <=? 90)%nat then ascii_of_nat (n + 32) else c.

(** [s.toLowerCase()] *)
Fixpoint toLowerCase (s : string) : string :=
  match s with
  | EmptyString => EmptyString
  | String c s' => String (lower_char c) (toLowerCase s')
  end.

Definition is_space (c : ascii) : bool :=
  let n := nat_of_ascii c in
  ((9 <=? n)%nat && (n <=? 13)%nat) || (n =? 32)%nat.

Fixpoint trimStart (s : string) : string :=
  match s with
  | EmptyString => EmptyString
  | String c s' => if is_space c then trimStart s' else s
  end.

Fixpoint trimEnd (s : string) : string :=
  match s with
  | EmptyString => EmptyString
  | String c s' =>
      match trimEnd s' with
      | EmptyString => if is_space c then EmptyString else String c EmptyString
      | r => String c r
      end
  end.

(** [s.trim()] *)
Definition trim (s : string) : string := trimEnd (trimStart s).

(** [!s] for a string: the empty string is falsy. *)
Definition is_empty (s : string) : bool :=
  match s with EmptyString => true | _ => false end.

Fixpoint startsWith (s q : string) : bool :=
  match q, s with
  | EmptyString, _ => true
  | String _ _, EmptyString => false
  | String a q', String b s' => Ascii.eqb a b && startsWith s' q'
  end.

(** [s.includes(q)] *)
Fixpoint includes (s q : string) : bool :=
  startsWith s q ||
  match s with
  | EmptyString => false
  | String _ s' => includes s' q
  end.

(** [s.split('.')]: never the empty list. *)
Fixpoint split (s : string) : list string :=
  match s with
  | EmptyString => [EmptyString]
  | String c s' =>
      if Ascii.eqb c "." then EmptyString :: split s'
      else match split s' with
           | h :: t => String c h :: t
           | [] => [String c EmptyString]
           end
  end.

(** [parts.join('.')] *)
Fixpoint join (parts : list string) : string :=
  match parts with
  | [] => EmptyString
  | [p] => p
  | p :: rest => p +:+ "." +:+ join rest
  end.

Definition is_digit (c : ascii) : bool :=
  let n := nat_of_ascii c in (48 <=? n)%nat && (n <=? 57)%nat.

Fixpoint all_digits (s : string) : bool :=
  match s with
  | EmptyString => true
  | String c s' => is_digit c && all_digits s'
  end.

(** [/^\d+$/.test(part)] *)
Definition is_index (part : string) : bool :=
  negb (is_empty part) && all_digits part.

(** [i.toString()] for a non-negative integer. *)
Definition toString (i : nat) : string :=
  NilZero.string_of_uint (Nat.to_uint i).

(** [parseInt(part, 10)] on a string of decimal digits. *)
Definition parseInt (part : string) : nat :=
  match NilZero.uint_of_string part with
  | Some d => Nat.of_uint d
  | None => 0
  end.

(** [parts.slice(a, b)] and [parts.slice(a)] for [0 <= a]. *)
Definition slice {A} (a b : nat) (l : list A) : list A :=
  firstn (b - a) (skipn a l).
Definition slice_from {A} (a : nat) (l : list A) : list A := skipn a l.

(** [Array.from(new Set(l))]: the first occurrence of each string, in
    order of appearance. *)
Fixpoint uniq_from (seen l : list string) : list string :=
  match l with
  | [] => []
  | x :: l' =>
      if bool_decide (x ∈ seen) then uniq_from seen l'
      else x :: uniq_from (x :: seen) l'
  end.
Definition uniq (l : list string) : list string := uniq_from [] l.

End JS.
Import JS.

(* ===================================================================== *)
(** ** The document                                                       *)
(* ===================================================================== *)

#[warnings="-register-all"]
Inductive json : Type :=
| JNull
| JBool (b : bool)
| JNumber (n : Z)
| JString (s : string)
| JArray (elems : list json)
| JObject (fields : list (string * json)).

(** [typeof v === 'object'] together with [v] being truthy: arrays and
    objects. *)
Definition is_container (v : json) : bool :=
  match v with
  | JArray _ | JObject _ => true
  | _ => false
  end.

(** JavaScript truthiness, as tested by [!parsedJson]. *)
Definition truthy (v : json) : bool :=
  match v with
  | JNull => false
  | JBool b => b
  | JNumber n => negb (n =? 0)%Z
  | JString s => negb (is_empty s)
  | JArray _ | JObject _ => true
  end.

Fixpoint indexed_from (i : nat) (l : list json) : list (string * json) :=
  match l with
  | [] => []
  | v :: l' => (toString i, v) :: indexed_from (S i) l'
  end.

(** [Object.entries(obj)] for an array or an object. *)
Definition entries (obj : json) : list (string * json) :=
  match obj with
  | JArray elems => indexed_from 0 elems
  | JObject fields => fields
  | _ => []
  end.

Fixpoint assoc (key : string) (fields : list (string * json)) : option json :=
  match fields with
  | [] => None
  | (k, v) :: rest => if String.eqb k key then Some v else assoc key rest
  end.

(** An array index as a property key is the canonical decimal string of
    the index: [a["1"]] is an element, [a["01"]] is not. *)
Definition canonical_index (part : string) : option nat :=
  if is_index part && String.eqb (toString (parseInt part)) part
  then Some (parseInt part) else None.

Definition char_at (s : string) (i : nat) : option json :=
  match String.get i s with
  | Some c => Some (JString (String c EmptyString))
  | None => None
  end.

(** The names of the members of [Object.prototype] (ECMA-262 with its
    annex B).  Every plain object inherits them; each is a function or,
    for [__proto__], the prototype object, so each reads as truthy. *)
Definition object_prototype_member (name : string) : bool :=
  existsb (String.eqb name)
    ["constructor"; "hasOwnProperty"; "isPrototypeOf";
     "propertyIsEnumerable"; "toLocaleString"; "toString"; "valueOf";
     "__proto__"; "__defineGetter__"; "__defineSetter__";
     "__lookupGetter__"; "__lookupSetter__"].

(** The own property [part] of a value that is neither [null] nor
    [undefined], if it has one. *)
Definition own_property (v : json) (part : string) : option json :=
  match v with
  | JObject fields => assoc part fields
  | JArray elems =>
      match canonical_index part with
      | Some i => nth_error elems i
      | None =>
          if String.eqb part "length"
          then Some (JNumber (Z.of_nat (List.length elems))) else None
      end
  | JString s =>
      match canonical_index part with
      | Some i => char_at s i
      | None =>
          if String.eqb part "length"
          then Some (JNumber (Z.of_nat (String.length s))) else None
      end
  | _ => None
  end.

(** Whether a name that is no own property of [v] is on no prototype of
    [v] either, so that reading it gives undefined: on an object, a name
    that no member of [Object.prototype] bears; on an array or a string,
    an index, which no prototype holds.  Any other name may belong to
    [Array.prototype], [String.prototype], [Number.prototype] or
    [Boolean.prototype], whose members vary with the runtime. *)
Definition surely_absent (v : json) (part : string) : bool :=
  match v with
  | JObject _ => negb (object_prototype_member part)
  | JArray _ | JString _ =>
      match canonical_index part with
      | Some _ => true
      | None => false
      end
  | _ => false
  end.

(** Outcome of evaluating an expression.
    - [Throw]: the [TypeError] of reading a property of [null] or
      [undefined].
    - [Return r]: the value [r] of the data, or undefined.
    - [Builtin receiver names]: the read has left the data.  The first of
      [names] is no property of [receiver] itself and is looked up on the
      prototype chain of [receiver]; the outcome is that of the loop of
      [getValueAtPath] reading [names] in turn from there (a built-in
      function or object, a value held by one, undefined, or the
      [TypeError] of an accessor) and is decided by the built-in objects
      of the runtime. *)
Inductive completion : Type :=
| Throw
| Return (r : option json)
| Builtin (receiver : json) (names : list string).

(** [current[part]]: reading a property of [null] or [undefined] throws;
    an own property shadows the prototype chain. *)
Definition get_property (current : option json) (part : string) : completion :=
  match current with
  | None | Some JNull => Throw
  | Some v =>
      match own_property v part with
      | Some w => Return (Some w)
      | None =>
          if surely_absent v part then Return None else Builtin v [part]
      end
  end.

(** [current === undefined || current === null] *)
Definition nullish (current : option json) : bool :=
  match current with
  | None | Some JNull => true
  | _ => false
  end.

(* ===================================================================== *)
(** ** PathAddressing: [getValueAtPath]                                   *)
(* ===================================================================== *)

(** The [for (const part of parts)] loop of [getValueAtPath].  Once a
    read has left the data, the remaining segments are read from the
    built-in value it gave. *)
Fixpoint walk_parts (parts : list string) (current : option json) : completion :=
  match parts with
  | [] => Return current
  | part :: rest =>
      if nullish current then Return None
      else match get_property current part with
           | Throw => Throw
           | Return next => walk_parts rest next
           | Builtin receiver names => Builtin receiver (names ++ rest)
           end
  end.

Definition getValueAtPath (obj : json) (path : string) : completion :=
  if is_empty path then Return (Some obj)
  else walk_parts (split path) (Some obj).

(* ===================================================================== *)
(** ** SearchIndexer: [searchInObject] and the search effect              *)
(* ===================================================================== *)

Inductive result_type : Type := KeyMatch | ValueMatch.

(** [interface SearchResult].  The fields [parentObj] and [childrenObj]
    are written by the indexer and read nowhere in the program; they are
    left out. *)
Record SearchResult : Type := {
  type : result_type;
  path : string;
  value : string;
  priority : Z
}.

(** [path ? `${path}.${key}` : key] *)
Definition child_path (parent key : string) : string :=
  if is_empty parent then key else parent +:+ "." +:+ key.

(** The matches the [forEach] callback of [searchInObject] pushes for the
    entry [[key, v]] itself: the key match, then the value match. *)
Definition entry_matches (query currentPath key : string) (v : json)
    : list SearchResult :=
  let matchesQuery := includes (toLowerCase key) query in
  (if matchesQuery
   then [ {| type := KeyMatch; path := currentPath; value := key;
             priority := if String.eqb (toLowerCase key) query then 5 else 1 |} ]
   else [])
  ++ (match v with
      | JString s =>
          if includes (toLowerCase s) query
          then [ {| type := ValueMatch; path := currentPath; value := s;
                    priority := if String.eqb s query then 5 else 1 |} ]
          else []
      | _ => []
      end).

(** The body of the callback: the entry's own matches, then the recursive
    call [nested] on a value that is an array or object. *)
Definition entry_results (query parent key : string) (v : json)
    (nested : string -> list SearchResult) : list SearchResult :=
  let currentPath := child_path parent key in
  entry_matches query currentPath key v
  ++ (if is_container v then nested currentPath else []).

Fixpoint searchInObject (query : string) (obj : json) (parent : string)
    {struct obj} : list SearchResult :=
  match obj with
  | JArray elems =>
      (fix each (i : nat) (l : list json) {struct l} : list SearchResult :=
         match l with
         | [] => []
         | v :: l' =>
             entry_results query parent (toString i) v (searchInObject query v)
             ++ each (S i) l'
         end) 0%nat elems
  | JObject fields =>
      (fix each (l : list (string * json)) {struct l} : list SearchResult :=
         match l with
         | [] => []
         | (k, v) :: l' =>
             entry_results query parent k v (searchInObject query v) ++ each l'
         end) fields
  | _ => []
  end.

(** [results.sort((a, b) => b.priority - a.priority)]: a stable sort by
    descending priority. *)
Fixpoint insert_by_priority (r : SearchResult) (sorted : list SearchResult)
    : list SearchResult :=
  match sorted with
  | [] => [r]
  | r' :: rest =>
      if (priority r' <=? priority r)%Z then r :: sorted
      else r' :: insert_by_priority r rest
  end.

Fixpoint sort_by_priority (results : list SearchResult) : list SearchResult :=
  match results with
  | [] => []
  | r :: rest => insert_by_priority r (sort_by_priority rest)
  end.

(* ===================================================================== *)
(** ** ExpansionState helpers                                             *)
(* ===================================================================== *)

(** [updates[key] = b] on an object whose prototype is
    [Object.prototype]: the assignment overwrites the own entry [key] or
    creates it, except for the key [__proto__] when the object has no
    such entry of its own.  The name then finds the accessor inherited
    from [Object.prototype], whose setter ignores a boolean, and no entry
    is stored. *)
Definition assign (key : string) (b : bool) (updates : gmap string bool)
    : gmap string bool :=
  if String.eqb key "__proto__" then
    match updates !! key with
    | Some _ => <[key := b]> updates
    | None => updates
    end
  else <[key := b]> updates.

(** [obj[key]] read for its truthiness on an object whose prototype is
    [Object.prototype]: the own entry, else the inherited member, which
    is truthy, else undefined. *)
Definition read_entry (obj : gmap string bool) (key : string) : bool :=
  match obj !! key with
  | Some b => b
  | None => object_prototype_member key
  end.

(** The loop [currentPath += (currentPath ? '.' : '') + parts[i];
    updates[currentPath] = true] over [parts]. *)
Fixpoint force_prefixes (parts : list string) (currentPath : string)
    (updates : gmap string bool) : gmap string bool :=
  match parts with
  | [] => updates
  | part :: rest =>
      let currentPath' :=
        currentPath +:+ (if is_empty currentPath then "" else ".") +:+ part in
      force_prefixes rest currentPath' (assign currentPath' true updates)
  end.

(** [ensureParentPathsExpanded(path, updates)]: every strict prefix. *)
Definition ensureParentPathsExpanded (p : string) (updates : gmap string bool)
    : gmap string bool :=
  let parts := split p in
  force_prefixes (firstn (List.length parts - 1) parts) "" updates.

(** [expandParentPaths(path)]: every prefix, the path itself included,
    merged into the previous map. *)
Definition expandParentPaths (p : string) (prev : gmap string bool)
    : gmap string bool :=
  if is_empty p then prev
  else force_prefixes (split p) "" ∅ ∪ prev.

(* ===================================================================== *)
(** ** SimilarityMatcher                                                  *)
(* ===================================================================== *)

(** What a caller of [getValueAtPath] holds of the document: the value of
    the data that the call returned, and [None] when it returned
    undefined or, the lookup having left the data, a built-in, which is
    no part of the document; among the built-ins an array index finds no
    element ([Array.prototype] is empty).  [Throw] does not arise
    ([walk_parts_no_throw] below). *)
Definition returned (c : completion) : option json :=
  match c with
  | Return r => r
  | Throw | Builtin _ _ => None
  end.

(** Positions [i] of [parts], counted from [start], with
    [/^\d+$/.test(parts[i])]. *)
Fixpoint index_positions_from (start : nat) (parts : list string) : list nat :=
  match parts with
  | [] => []
  | part :: rest =>
      if is_index part then start :: index_positions_from (S start) rest
      else index_positions_from (S start) rest
  end.
Definition index_positions (parts : list string) : list nat :=
  index_positions_from 0 parts.

Definition getNormalizedPattern (p : string) : string :=
  if is_empty p then ""
  else join (map (fun part => if is_index part then "*" else part) (split p)).

(** [Object.keys(expandedSections)]; the order of the keys is the map's. *)
Definition keys (m : gmap string bool) : list string := (map_to_list m).*1.

(** [parts[i] !== pParts[i]], negated. *)
Definition same_part (parts pParts : list string) (i : nat) : bool :=
  match nth_error parts i, nth_error pParts i with
  | Some a, Some b => String.eqb a b
  | None, None => true
  | _, _ => false
  end.

(** The pattern-based lookup among the paths already present in the
    expansion map. *)
Definition findSiblingArrayItems (expanded : gmap string bool) (p : string)
    : list string :=
  if is_empty p then []
  else
    let parts := split p in
    let indexPositions := index_positions parts in
    match indexPositions with
    | [] => []
    | _ =>
        let currentPattern := getNormalizedPattern p in
        filter (fun q =>
          Is_true (negb (String.eqb q p)
            && String.eqb (getNormalizedPattern q) currentPattern
            && (List.length (split q) =? List.length parts)%nat
            && forallb (fun i =>
                 existsb (Nat.eqb i) indexPositions
                 || same_part parts (split q) i)
                 (seq 0 (List.length parts))))
          (keys expanded)
    end.

Definition findSimilarStructurePaths (expanded : gmap string bool) (p : string)
    : list string :=
  if is_empty p then [] else findSiblingArrayItems expanded p.

Definition getPathUpToIndex (p : string) (indexPosition : nat) : string :=
  join (slice 0 indexPosition (split p)).

Definition getPathWithReplacedIndex (p : string) (indexPosition newIndex : nat)
    : string :=
  let parts := split p in
  let prefix := join (slice 0 indexPosition parts) in
  let suffix := join (slice_from (indexPosition + 1) parts) in
  let newIndexStr := toString newIndex in
  if negb (is_empty prefix) then
    (if negb (is_empty suffix)
     then prefix +:+ "." +:+ newIndexStr +:+ "." +:+ suffix
     else prefix +:+ "." +:+ newIndexStr)
  else
    (if negb (is_empty suffix)
     then newIndexStr +:+ "." +:+ suffix
     else newIndexStr).

(** The first [i] with [/^\d+$/.test(parts[i])], if any. *)
Definition first_index_position (parts : list string) : option nat :=
  head (index_positions parts).

Definition findSiblingsInArray (parsedJson : json) (p : string) : list string :=
  let parts := split p in
  match first_index_position parts with
  | None => []
  | Some indexPosition =>
      let arrayParentPath := getPathUpToIndex p indexPosition in
      match returned (getValueAtPath parsedJson arrayParentPath) with
      | Some (JArray arrayAtPath) =>
          let currentIndex := parseInt (nth indexPosition parts "") in
          map (getPathWithReplacedIndex p indexPosition)
              (filter (fun i => i ≠ currentIndex)
                      (seq 0 (List.length arrayAtPath)))
      | _ => []
      end
  end.

Definition findNestedSiblings (parsedJson : json) (p : string) : list string :=
  let parts := split p in
  let indexPositions := index_positions parts in
  match indexPositions with
  | [] => []
  | _ =>
      uniq (flat_map (fun pos =>
        let pathToHere := join (slice 0 (pos + 1) parts) in
        let siblings := findSiblingsInArray parsedJson pathToHere in
        if (pos <? List.length parts - 1)%nat then
          let suffix := join (slice_from (pos + 1) parts) in
          map (fun sibling => sibling +:+ "." +:+ suffix) siblings
        else siblings) indexPositions)
  end.

(** The batch built by either branch of [toggleSimilarStructures] (the two
    branches have the same body) for the paths [targets]. *)
Definition similar_updates (p : string) (expand : bool) (targets : list string)
    : gmap string bool :=
  let updates0 : gmap string bool :=
    if expand then ensureParentPathsExpanded p (assign p expand ∅) else ∅ in
  fold_left (fun updates q =>
      let updates' := assign q expand updates in
      if expand then ensureParentPathsExpanded q updates' else updates')
    targets updates0.

(** The sibling set [toggleSimilarStructures] works on: the nested
    siblings, or the pattern-based ones when there are none. *)
Definition similar_targets (parsedJson : json) (expanded : gmap string bool)
    (p : string) : list string :=
  match findNestedSiblings parsedJson p with
  | [] => findSimilarStructurePaths expanded p
  | nestedSiblings => nestedSiblings
  end.

(* ===================================================================== *)
(** ** The component state and its transitions                            *)
(* ===================================================================== *)

Record State : Type := {
  jsonInput : string;
  parsedJson : json;
  error : string;
  expandedSections : gmap string bool;
  searchQuery : string;
  searchResults : list SearchResult;
  currentSearchIndex : Z
}.

(** The [useState] initial values. *)
Definition initial : State := {|
  jsonInput := ""; parsedJson := JNull; error := "";
  expandedSections := ∅; searchQuery := "";
  searchResults := []; currentSearchIndex := 0
|}.

Definition setParsed (v : json) (msg : string) (st : State) : State :=
  {| jsonInput := jsonInput st; parsedJson := v; error := msg;
     expandedSections := expandedSections st; searchQuery := searchQuery st;
     searchResults := searchResults st;
     currentSearchIndex := currentSearchIndex st |}.

Definition setSearchResults (rs : list SearchResult) (st : State) : State :=
  {| jsonInput := jsonInput st; parsedJson := parsedJson st; error := error st;
     expandedSections := expandedSections st; searchQuery := searchQuery st;
     searchResults := rs; currentSearchIndex := currentSearchIndex st |}.

Definition setCurrentSearchIndex (i : Z) (st : State) : State :=
  {| jsonInput := jsonInput st; parsedJson := parsedJson st; error := error st;
     expandedSections := expandedSections st; searchQuery := searchQuery st;
     searchResults := searchResults st; currentSearchIndex := i |}.

Definition setExpandedSections (m : gmap string bool) (st : State) : State :=
  {| jsonInput := jsonInput st; parsedJson := parsedJson st; error := error st;
     expandedSections := m; searchQuery := searchQuery st;
     searchResults := searchResults st;
     currentSearchIndex := currentSearchIndex st |}.

Definition withJsonInput (text : string) (st : State) : State :=
  {| jsonInput := text; parsedJson := parsedJson st; error := error st;
     expandedSections := expandedSections st; searchQuery := searchQuery st;
     searchResults := searchResults st;
     currentSearchIndex := currentSearchIndex st |}.

Definition withSearchQuery (q : string) (st : State) : State :=
  {| jsonInput := jsonInput st; parsedJson := parsedJson st; error := error st;
     expandedSections := expandedSections st; searchQuery := q;
     searchResults := searchResults st;
     currentSearchIndex := currentSearchIndex st |}.

(** The ranked match list of the search effect for a document and the
    text of the search box, when the effect does not return early. *)
Definition search (doc : json) (q : string) : list SearchResult :=
  sort_by_priority (searchInObject (toLowerCase q) doc "").

(** The effect on [[searchQuery, parsedJson]]. *)
Definition searchEffect (st : State) : State :=
  if is_empty (trim (searchQuery st)) || negb (truthy (parsedJson st))
  then setSearchResults [] st
  else
    let results := search (parsedJson st) (searchQuery st) in
    setCurrentSearchIndex
      (if (0 <? List.length results)%nat then 0%Z else (-1)%Z)
      (setSearchResults results st).

(** The effect on [[currentSearchIndex, searchResults]], without the
    scrolling and highlighting of the DOM element. *)
Definition navigationEffect (st : State) : State :=
  if (0 <=? currentSearchIndex st)%Z
     && (0 <? List.length (searchResults st))%nat
  then
    match nth_error (searchResults st) (Z.to_nat (currentSearchIndex st)) with
    | Some result =>
        setExpandedSections
          (expandParentPaths (path result) (expandedSections st)) st
    | None => st
    end
  else st.

(** [Object.is(old, fresh)] for a value [fresh] that [JSON.parse] has just
    built: an array or object is a new reference. *)
Definition same_value (old fresh : json) : bool :=
  match old, fresh with
  | JNull, JNull => true
  | JBool a, JBool b => Bool.eqb a b
  | JNumber a, JNumber b => (a =? b)%Z
  | JString a, JString b => String.eqb a b
  | _, _ => false
  end.

Inductive ParseResult : Type :=
| SyntaxError (message : string)
| Parsed (v : json).

Section Component.

(** [JSON.parse], the standard parser the component delegates to. *)
Variable JSON_parse : string -> ParseResult.

(** The effect on [[jsonInput]]. *)
Definition parseEffect (st : State) : State :=
  if is_empty (trim (jsonInput st)) then setParsed JNull "" st
  else
    match JSON_parse (jsonInput st) with
    | Parsed parsed => setParsed parsed "" st
    | SyntaxError message => setParsed JNull ("Invalid JSON: " +:+ message) st
    end.

(** The textarea's [onChange]: [setJsonInput], then the effects whose
    dependencies changed. *)
Definition onJsonInput (text : string) (st : State) : State :=
  if String.eqb text (jsonInput st) then st
  else
    let st1 := parseEffect (withJsonInput text st) in
    if same_value (parsedJson st) (parsedJson st1) then st1
    else navigationEffect (searchEffect st1).

End Component.

(** The search box's [onChange]: [setSearchQuery], then the effects. *)
Definition onSearchQuery (q : string) (st : State) : State :=
  if String.eqb q (searchQuery st) then st
  else navigationEffect (searchEffect (withSearchQuery q st)).

Definition navigateToNextResult (st : State) : State :=
  if (List.length (searchResults st) =? 0)%nat then st
  else
    let next :=
      Z.rem (currentSearchIndex st + 1)%Z
            (Z.of_nat (List.length (searchResults st))) in
    if (next =? currentSearchIndex st)%Z then st
    else navigationEffect (setCurrentSearchIndex next st).

Definition navigateToPrevResult (st : State) : State :=
  if (List.length (searchResults st) =? 0)%nat then st
  else
    let prev :=
      if (currentSearchIndex st <=? 0)%Z
      then (Z.of_nat (List.length (searchResults st)) - 1)%Z
      else (currentSearchIndex st - 1)%Z in
    if (prev =? currentSearchIndex st)%Z then st
    else navigationEffect (setCurrentSearchIndex prev st).

(** [toggleSection(path)]: [{...prev, [path]: !prev[path]}].  The
    computed key defines an own entry whatever its name. *)
Definition toggleSection (p : string) (st : State) : State :=
  setExpandedSections
    (<[p := negb (read_entry (expandedSections st) p)]>
       (expandedSections st)) st.

Definition toggleSimilarStructures (p : string) (expand : bool) (st : State)
    : State :=
  match findNestedSiblings (parsedJson st) p with
  | [] =>
      match findSimilarStructurePaths (expandedSections st) p with
      | [] => st
      | similarPaths =>
          setExpandedSections
            (similar_updates p expand similarPaths ∪ expandedSections st) st
      end
  | nestedSiblings =>
      setExpandedSections
        (similar_updates p expand nestedSiblings ∪ expandedSections st) st
  end.

(** The user interactions, and the states the component can be in. *)
Inductive event : Type :=
| JsonInput (text : string)
| SearchQuery (q : string)
| NextResult
| PrevResult
| ToggleSection (p : string)
| ToggleSimilar (p : string) (expand : bool).

Definition step (JSON_parse : string -> ParseResult) (st : State) (e : event)
    : State :=
  match e with
  | JsonInput text => onJsonInput JSON_parse text st
  | SearchQuery q => onSearchQuery q st
  | NextResult => navigateToNextResult st
  | PrevResult => navigateToPrevResult st
  | ToggleSection p => toggleSection p st
  | ToggleSimilar p expand => toggleSimilarStructures p expand st
  end.

Definition run (JSON_parse : string -> ParseResult) (events : list event)
    : State :=
  fold_left (step JSON_parse) events initial.

Definition reachable (JSON_parse : string -> ParseResult) (st : State) : Prop :=
  exists events, st = run JSON_parse events.

(** [JSON.parse] on the two texts used in the examples below: the nested
    arrays [[[[]],[]]] and the malformed text of the spec's scenario 4. *)
Definition sample_parse (text : string) : ParseResult :=
  if String.eqb text "[[[]],[]]"
  then Parsed (JArray [JArray [JArray []]; JArray []])
  else SyntaxError "Unexpected token n in JSON at position 1".

(** The match list the search effect leaves in the state for the document
    [doc] and the search text [q]. *)
Definition searchMatches (doc : json) (q : string) : list SearchResult :=
  searchResults (searchEffect (withSearchQuery q (setParsed doc "" initial))).

(** What holds of the match list and the cursor in every state: a
    document that is no container has no matches, and over a non-empty
    match list the cursor is a valid index. *)
Definition consistent (st : State) : Prop :=
  (is_container (parsedJson st) = false -> searchResults st = [])
  /\ (searchResults st <> [] ->
      (0 <= currentSearchIndex st < Z.of_nat (List.length (searchResults st)))%Z).

(** ** Locations of a document *)

(** [at_path obj segs c]: following the entry keys [segs] (object keys and
    array indices, as [Object.entries] lists them) from [obj] leads to
    [c]. *)
Inductive at_path : json -> list string -> json -> Prop :=
| at_here obj : at_path obj [] obj
| at_entry obj k v segs c :
    In (k, v) (entries obj) -> at_path v segs c -> at_path obj (k :: segs) c.

(** The path string the traversals build for the chain [segs] below the
    path [parent]: [currentPath = path ? `${path}.${key}` : key] at every
    level. *)
Definition path_from (parent : string) (segs : list string) : string :=
  fold_left child_path segs parent.
Definition path_of (segs : list string) : string := path_from "" segs.

(** The traversal shared by [searchInObject] and [renderJSON]: every
    entry visited, as the chain of keys leading to it and the path string
    assigned to it. *)
Fixpoint locations (obj : json) (chain : list string) (parent : string)
    {struct obj} : list (list string * string) :=
  match obj with
  | JArray elems =>
      (fix each (i : nat) (l : list json) {struct l} :=
         match l with
         | [] => []
         | v :: l' =>
             let currentPath := child_path parent (toString i) in
             (chain ++ [toString i], currentPath)
             :: (if is_container v
                 then locations v (chain ++ [toString i]) currentPath else [])
             ++ each (S i) l'
         end) 0%nat elems
  | JObject fields =>
      (fix each (l : list (string * json)) {struct l} :=
         match l with
         | [] => []
         | (k, v) :: l' =>
             let currentPath := child_path parent k in
             (chain ++ [k], currentPath)
             :: (if is_container v
                 then locations v (chain ++ [k]) currentPath else [])
             ++ each l'
         end) fields
  | _ => []
  end.

Fixpoint no_dot (s : string) : bool :=
  match s with
  | EmptyString => true
  | String c s' => negb (Ascii.eqb c ".") && no_dot s'
  end.

(** A key that is not empty and contains no dot. *)
Definition plain_key (k : string) : bool := negb (is_empty k) && no_dot k.

(** Every object key of the document is plain. *)
Fixpoint plain_keys (obj : json) : bool :=
  match obj with
  | JArray elems => forallb plain_keys elems
  | JObject fields =>
      forallb (fun kv => plain_key (fst kv) && plain_keys (snd kv)) fields
  | _ => true
  end.

(** ** Further functions of the component *)

(** [expandedSections[currentPath]] as [renderJSON] reads it, for its
    truthiness. *)
Definition isExpanded (st : State) (p : string) : bool :=
  read_entry (expandedSections st) p.

(** [path.lastIndexOf('.')], with [None] for -1. *)
Fixpoint lastIndexOf_dot (s : string) : option nat :=
  match s with
  | EmptyString => None
  | String c s' =>
      match lastIndexOf_dot s' with
      | Some i => Some (S i)
      | None => if Ascii.eqb c "." then Some 0%nat else None
      end
  end.

(** [getParentPath(path)], with [None] for [null]. *)
Definition getParentPath (p : string) : option string :=
  match lastIndexOf_dot p with
  | None => None
  | Some lastDotIndex => Some (substring 0 lastDotIndex p)
  end.

(** [getParent(obj, path)]: the pair of [parent] and [key].  [parent] is
    [Some JNull] for [null] and [None] for [undefined]. *)
Definition getParent (obj : json) (p : string) : option json * string :=
  if is_empty p || negb (includes p ".") then (Some JNull, p)
  else
    let parts := split p in
    let key := List.last parts "" in
    let parentPath := join (removelast parts) in
    (returned (getValueAtPath obj parentPath), key).

Fixpoint distinct_strings (l : list string) : bool :=
  match l with
  | [] => true
  | k :: rest => negb (existsb (String.eqb k) rest) && distinct_strings rest
  end.

(** No object of the document lists a key twice, as in every value built
    by [JSON.parse]. *)
Fixpoint distinct_keys (obj : json) : bool :=
  match obj with
  | JArray elems => forallb distinct_keys elems
  | JObject fields =>
      distinct_strings (map fst fields)
      && forallb (fun kv => distinct_keys (snd kv)) fields
  | _ => true
  end.

(** The derived fields of a state agree with its two inputs. *)
Definition in_sync (JSON_parse : string -> ParseResult) (st : State) : Prop :=
  parsedJson st = parsedJson (parseEffect JSON_parse st)
  /\ error st = error (parseEffect JSON_parse st)
  /\ searchResults st = searchMatches (parsedJson st) (searchQuery st).

(** [st'] differs from [st] at most in the cursor and the ExpansionMap. *)
Definition same_inputs (st st' : State) : Prop :=
  jsonInput st' = jsonInput st
  /\ parsedJson st' = parsedJson st
  /\ error st' = error st
  /\ searchQuery st' = searchQuery st
  /\ searchResults st' = searchResults st.

(** The indices [findSiblingsInArray] substitutes: those of the array at
    [arrayParentPath] other than [parseInt(current, 10)]; none when the
    value there is not an array. *)
Definition sibling_indices (doc : json) (arrayParentPath current : string)
    : list nat :=
  match returned (getValueAtPath doc arrayParentPath) with
  | Some (JArray arrayAtPath) =>
      filter (fun i => i ≠ parseInt current) (seq 0 (List.length arrayAtPath))
  | _ => []
  end.

(** ** Example documents and states *)

(** [{"a": [{"b": [{"x": 1}, {"x": 2}]}, {"b": [{"x": 3}, {"x": 4}]}]}] *)
Definition nested_arrays : json :=
  JObject [("a", JArray [
    JObject [("b", JArray [JObject [("x", JNumber 1)]; JObject [("x", JNumber 2)]])];
    JObject [("b", JArray [JObject [("x", JNumber 3)]; JObject [("x", JNumber 4)]])]])].

(** [nested_arrays] on display with the sections [a], [a.0] and [a.1]
    expanded, where the button of [a.0] reads "Close Similar". *)
Definition siblings_open : State :=
  setExpandedSections
    (<["a" := true]> (<["a.0" := true]> (<["a.1" := true]> ∅)))
    (setParsed nested_arrays "" initial).

(** The state after pasting [[[[]],[]]] and typing [0] in the search box:
    two key matches, cursor 0. *)
Definition two_matches : State :=
  run sample_parse [JsonInput "[[[]],[]]"; SearchQuery "0"].

(** A document with a section under the key [__proto__], and the state
    after searching it for [k] and collapsing that section by hand. *)
Definition proto_section : json :=
  JObject [("__proto__", JObject [("k", JNumber 1)])].

Definition proto_collapsed : State :=
  toggleSection "__proto__"
    (onSearchQuery "k" (setParsed proto_section "" initial)).

(** A document with an array under the key [__proto__]. *)
Definition proto_array : json :=
  JObject [("__proto__", JArray [JObject []; JObject []])].

(* ===================================================================== *)
(** * Properties                                                          *)
(* ===================================================================== *)

(** ** SearchNavigator *)

(** The navigation effect only writes [expandedSections]. *)
Ltac navigation_frame :=
  unfold navigationEffect;
  destruct (_ && _); [|reflexivity];
  destruct (nth_error _ _); reflexivity.

Lemma navigationEffect_results st :
  searchResults (navigationEffect st) = searchResults st.
Proof. navigation_frame. Qed.

Lemma navigationEffect_index st :
  currentSearchIndex (navigationEffect st) = currentSearchIndex st.
Proof. navigation_frame. Qed.

Lemma navigationEffect_document st :
  parsedJson (navigationEffect st) = parsedJson st.
Proof. navigation_frame. Qed.

Lemma navigationEffect_error st : error (navigationEffect st) = error st.
Proof. navigation_frame. Qed.

Lemma next_results st :
  searchResults (navigateToNextResult st) = searchResults st.
Proof.
  unfold navigateToNextResult.
  destruct (_ =? _)%nat; [reflexivity|].
  destruct (_ =? _)%Z; [reflexivity|].
  now rewrite navigationEffect_results.
Qed.

Lemma prev_results st :
  searchResults (navigateToPrevResult st) = searchResults st.
Proof.
  unfold navigateToPrevResult.
  destruct (_ =? _)%nat; [reflexivity|].
  destruct (_ =? _)%Z; [reflexivity|].
  now rewrite navigationEffect_results.
Qed.

(** The cursor after [next()]: [(cursor + 1) % length]. *)
Lemma next_index st :
  searchResults st <> [] ->
  currentSearchIndex (navigateToNextResult st)
  = Z.rem (currentSearchIndex st + 1) (Z.of_nat (List.length (searchResults st))).
Proof.
  intros Hne. unfold navigateToNextResult.
  destruct (searchResults st) as [|r rs] eqn:E; [congruence|].
  cbn [List.length Nat.eqb].
  destruct (_ =? _)%Z eqn:Hsame.
  - apply Z.eqb_eq in Hsame. now rewrite Hsame.
  - now rewrite navigationEffect_index.
Qed.

(** The cursor after [previous()]. *)
Lemma prev_index st :
  searchResults st <> [] ->
  currentSearchIndex (navigateToPrevResult st)
  = if (currentSearchIndex st <=? 0)%Z
    then (Z.of_nat (List.length (searchResults st)) - 1)%Z
    else (currentSearchIndex st - 1)%Z.
Proof.
  intros Hne. unfold navigateToPrevResult.
  destruct (searchResults st) as [|r rs] eqn:E; [congruence|].
  cbn [List.length Nat.eqb].
  destruct (_ =? _)%Z eqn:Hsame.
  - apply Z.eqb_eq in Hsame. now rewrite Hsame.
  - now rewrite navigationEffect_index.
Qed.

Lemma nonempty_length {A} (l : list A) :
  l <> [] -> (0 < Z.of_nat (List.length l))%Z.
Proof. destruct l; [congruence|]. cbn [List.length]. lia. Qed.

(** C9: on a non-empty match list and from a valid cursor, [next()] then
    [previous()] restores the cursor, and so does [previous()] then
    [next()]; [next()] steps from the last index to 0 and [previous()]
    from 0 to the last index; on an empty match list both leave the state
    as it is. *)
Theorem navigation_round_trip (st : State) :
  (searchResults st = [] ->
     navigateToNextResult st = st /\ navigateToPrevResult st = st)
  /\ (searchResults st <> [] ->
      (0 <= currentSearchIndex st < Z.of_nat (List.length (searchResults st)))%Z ->
      let len := Z.of_nat (List.length (searchResults st)) in
      let cursor := currentSearchIndex st in
      currentSearchIndex (navigateToPrevResult (navigateToNextResult st)) = cursor
      /\ currentSearchIndex (navigateToNextResult (navigateToPrevResult st)) = cursor
      /\ currentSearchIndex (navigateToNextResult st) = ((cursor + 1) mod len)%Z
      /\ (cursor = (len - 1)%Z -> currentSearchIndex (navigateToNextResult st) = 0%Z)
      /\ (cursor = 0%Z ->
          currentSearchIndex (navigateToPrevResult st) = (len - 1)%Z)).
Proof.
  split.
  - intros Hempty. unfold navigateToNextResult, navigateToPrevResult.
    rewrite Hempty. split; reflexivity.
  - intros Hne Hvalid len cursor.
    assert (Hnext := next_index st Hne).
    assert (Hprev := prev_index st Hne).
    assert (Hne1 : searchResults (navigateToNextResult st) <> [])
      by now rewrite next_results.
    assert (Hne2 : searchResults (navigateToPrevResult st) <> [])
      by now rewrite prev_results.
    assert (Hpn := prev_index _ Hne1). rewrite next_results in Hpn.
    assert (Hnp := next_index _ Hne2). rewrite prev_results in Hnp.
    fold len in Hnext, Hprev, Hpn, Hnp, Hvalid.
    fold cursor in Hnext, Hprev, Hvalid.
    rewrite Z.rem_mod_nonneg in Hnext by lia.
    assert (Hcases : (cursor + 1 = len \/ cursor + 1 < len)%Z) by lia.
    repeat split.
    + rewrite Hpn, Hnext. destruct Hcases as [Hlast|Hmid].
      * rewrite Hlast, Z.mod_same by lia. cbn. lia.
      * rewrite Z.mod_small by lia.
        destruct (Z.leb_spec (cursor + 1) 0); lia.
    + rewrite Hnp, Hprev. destruct (Z.leb_spec cursor 0).
      * replace (len - 1 + 1)%Z with len by lia.
        rewrite Z.rem_mod_nonneg, Z.mod_same by lia. lia.
      * replace (cursor - 1 + 1)%Z with cursor by lia.
        rewrite Z.rem_mod_nonneg, Z.mod_small by lia. reflexivity.
    + exact Hnext.
    + intros Hlast. rewrite Hnext.
      replace (cursor + 1)%Z with len by lia. apply Z.mod_same. lia.
    + intros Hzero. rewrite Hprev.
      destruct (Z.leb_spec cursor 0); lia.
Qed.

Lemma two_matches_state :
  map path (searchResults two_matches) = ["0"; "0.0"]
  /\ currentSearchIndex two_matches = 0%Z.
Proof. vm_compute. split; reflexivity. Qed.

Lemma navigation_round_trip_witness :
  searchResults two_matches <> []
  /\ (0 <= currentSearchIndex two_matches
         < Z.of_nat (List.length (searchResults two_matches)))%Z
  /\ currentSearchIndex (navigateToPrevResult (navigateToNextResult two_matches))
     = currentSearchIndex two_matches.
Proof.
  assert (Hne : searchResults two_matches <> []) by (vm_compute; discriminate).
  assert (Hvalid : (0 <= currentSearchIndex two_matches
         < Z.of_nat (List.length (searchResults two_matches)))%Z)
    by (vm_compute; split; [discriminate|reflexivity]).
  split; [exact Hne|]. split; [exact Hvalid|].
  destruct (navigation_round_trip two_matches) as [_ H].
  exact (proj1 (H Hne Hvalid)).
Defined.

(** ** PathAddressing *)

Lemma get_property_cases current part :
  nullish current = false ->
  exists v,
    current = Some v
    /\ match own_property v part with
       | Some w => get_property current part = Return (Some w)
       | None =>
           if surely_absent v part
           then get_property current part = Return None
           else get_property current part = Builtin v [part]
       end.
Proof.
  destruct current as [v|]; [|discriminate]. intros Hn. exists v.
  split; [reflexivity|].
  destruct v; try discriminate Hn; cbn [get_property];
    destruct (own_property _ part); try reflexivity;
    destruct (surely_absent _ part); reflexivity.
Qed.








(** A name that the data does not hold is read from the prototype chain:
    for the document [{"a": 1}] the path [a.constructor.name] leaves the
    data at the number, whose [constructor] is inherited. *)
Lemma getValueAtPath_inherited_member :
  getValueAtPath (JObject [("a", JNumber 1)]) "a.constructor.name"
  = Builtin (JNumber 1) ["constructor"; "name"].
Proof. reflexivity. Qed.


(** ** SimilarityMatcher: nested pivots *)

(** C3 fails on the code: for the path [a.0.b.0] of [nested_arrays], with
    pivots at positions 1 and 3, the pivot at position 3 is looked up
    through [findSiblingsInArray], which takes the first index position
    of the path it is given; the only candidate is [a.1.b.0], and the
    candidate [a.0.b.1], which varies the inner index, is not produced. *)
Theorem findNestedSiblings_inner_pivot :
  index_positions (split "a.0.b.0") = [1; 3]%nat
  /\ returned (getValueAtPath nested_arrays "a.0.b")
     = Some (JArray [JObject [("x", JNumber 1)]; JObject [("x", JNumber 2)]])
  /\ findSiblingsInArray nested_arrays "a.0.b.0" = ["a.1.b.0"]
  /\ findNestedSiblings nested_arrays "a.0.b.0" = ["a.1.b.0"]
  /\ ~ In "a.0.b.1" (findNestedSiblings nested_arrays "a.0.b.0").
Proof.
  repeat split; try reflexivity.
  vm_compute. intros [H|[]]. discriminate H.
Qed.

(** ** Reachable states *)

Lemma same_value_eq old fresh : same_value old fresh = true -> old = fresh.
Proof.
  destruct old, fresh; cbn; try discriminate; intros H.
  - reflexivity.
  - apply Bool.eqb_prop in H. now subst.
  - apply Z.eqb_eq in H. now subst.
  - apply String.eqb_eq in H. now subst.
Qed.

Lemma searchInObject_scalar query doc parent :
  is_container doc = false -> searchInObject query doc parent = [].
Proof. destruct doc; cbn; congruence. Qed.

Lemma searchEffect_results st :
  searchResults (searchEffect st)
  = if is_empty (trim (searchQuery st)) || negb (truthy (parsedJson st))
    then [] else search (parsedJson st) (searchQuery st).
Proof. unfold searchEffect. destruct (_ || _); reflexivity. Qed.

Lemma searchEffect_index st :
  currentSearchIndex (searchEffect st)
  = if is_empty (trim (searchQuery st)) || negb (truthy (parsedJson st))
    then currentSearchIndex st
    else if (0 <? List.length (search (parsedJson st) (searchQuery st)))%nat
         then 0%Z else (-1)%Z.
Proof. unfold searchEffect. destruct (_ || _); reflexivity. Qed.

Lemma searchEffect_document st : parsedJson (searchEffect st) = parsedJson st.
Proof. unfold searchEffect. destruct (_ || _); reflexivity. Qed.

Lemma searchEffect_expanded st :
  expandedSections (searchEffect st) = expandedSections st.
Proof. unfold searchEffect. destruct (_ || _); reflexivity. Qed.

Lemma searchEffect_error st : error (searchEffect st) = error st.
Proof. unfold searchEffect. destruct (_ || _); reflexivity. Qed.

Lemma navigationEffect_no_results st :
  searchResults st = [] -> navigationEffect st = st.
Proof.
  intros H. unfold navigationEffect. rewrite H. cbn.
  now rewrite Bool.andb_false_r.
Qed.

Lemma toggleSimilarStructures_frame p expand st :
  parsedJson (toggleSimilarStructures p expand st) = parsedJson st
  /\ searchResults (toggleSimilarStructures p expand st) = searchResults st
  /\ currentSearchIndex (toggleSimilarStructures p expand st)
     = currentSearchIndex st.
Proof.
  unfold toggleSimilarStructures.
  destruct (findNestedSiblings _ _); [|now repeat split].
  destruct (findSimilarStructurePaths _ _); now repeat split.
Qed.

Lemma search_scalar doc q : is_container doc = false -> search doc q = [].
Proof. intros H. unfold search. now rewrite searchInObject_scalar. Qed.

Lemma effects_consistent st : consistent (navigationEffect (searchEffect st)).
Proof.
  unfold consistent.
  rewrite navigationEffect_results, navigationEffect_index,
    navigationEffect_document, searchEffect_results, searchEffect_index,
    searchEffect_document.
  destruct (_ || _); [split; [reflexivity|congruence]|].
  split.
  - apply search_scalar.
  - intros Hne. destruct (search _ _); [congruence|].
    cbn [List.length Nat.ltb Nat.leb]. lia.
Qed.

Lemma step_consistent JSON_parse st e :
  consistent st -> consistent (step JSON_parse st e).
Proof.
  intros [Hdoc Hcur]. destruct e as [text|q| | |p|p expand]; cbn [step].
  - unfold onJsonInput. destruct (String.eqb _ _); [now split|].
    destruct (same_value _ _) eqn:Hsame; [|apply effects_consistent].
    apply same_value_eq in Hsame.
    assert (Hrs : searchResults (parseEffect JSON_parse (withJsonInput text st))
                  = searchResults st).
    { unfold parseEffect. destruct (is_empty _); [reflexivity|].
      destruct (JSON_parse _); reflexivity. }
    assert (Hix : currentSearchIndex (parseEffect JSON_parse (withJsonInput text st))
                  = currentSearchIndex st).
    { unfold parseEffect. destruct (is_empty _); [reflexivity|].
      destruct (JSON_parse _); reflexivity. }
    unfold consistent. rewrite Hrs, Hix, <- Hsame. now split.
  - unfold onSearchQuery. destruct (String.eqb _ _); [now split|].
    apply effects_consistent.
  - unfold consistent.
    destruct (list_eq_nil_dec (searchResults st)) as [Hnil|Hne].
    { unfold navigateToNextResult. rewrite Hnil. cbn. now split. }
    rewrite next_results, next_index by assumption.
    assert (Hdoc' : parsedJson (navigateToNextResult st) = parsedJson st).
    { unfold navigateToNextResult. destruct (_ =? _)%nat; [reflexivity|].
      destruct (_ =? _)%Z; [reflexivity|]. now rewrite navigationEffect_document. }
    rewrite Hdoc'. split; [assumption|]. intros _.
    specialize (Hcur Hne).
    rewrite Z.rem_mod_nonneg by lia. apply Z.mod_pos_bound. lia.
  - unfold consistent.
    destruct (list_eq_nil_dec (searchResults st)) as [Hnil|Hne].
    { unfold navigateToPrevResult. rewrite Hnil. cbn. now split. }
    rewrite prev_results, prev_index by assumption.
    assert (Hdoc' : parsedJson (navigateToPrevResult st) = parsedJson st).
    { unfold navigateToPrevResult. destruct (_ =? _)%nat; [reflexivity|].
      destruct (_ =? _)%Z; [reflexivity|]. now rewrite navigationEffect_document. }
    rewrite Hdoc'. split; [assumption|]. intros _.
    specialize (Hcur Hne). destruct (Z.leb_spec (currentSearchIndex st) 0); lia.
  - now split.
  - unfold consistent.
    destruct (toggleSimilarStructures_frame p expand st) as (-> & -> & ->).
    now split.
Qed.

Lemma reachable_consistent JSON_parse st :
  reachable JSON_parse st -> consistent st.
Proof.
  intros [events ->]. unfold run.
  assert (Hinit : consistent initial) by (split; [reflexivity|intros []; reflexivity]).
  revert Hinit. generalize initial.
  induction events as [|e events IH]; intros st0 H0; cbn [fold_left].
  - exact H0.
  - apply IH. now apply step_consistent.
Qed.

(** ** NavigationCursor after a recompute *)

(** C2 fails on the code: the early return of the search effect, taken for
    an empty query and for an absent document, empties the match list and
    leaves the cursor as it was.  From the state with two matches and the
    cursor moved to 1, clearing the query gives an empty match list with
    the cursor still 1, and so does removing the document; the initial
    state already has an empty match list with cursor 0, not -1. *)
Theorem cursor_stale_after_early_return :
  let st := step sample_parse two_matches NextResult in
  let cleared := step sample_parse st (SearchQuery "") in
  let removed := step sample_parse st (JsonInput "") in
  (List.length (searchResults st) = 2%nat /\ currentSearchIndex st = 1%Z)
  /\ (searchResults cleared = [] /\ currentSearchIndex cleared = 1%Z)
  /\ (parsedJson removed = JNull /\ searchResults removed = []
      /\ currentSearchIndex removed = 1%Z)
  /\ (searchResults initial = [] /\ currentSearchIndex initial = 0%Z).
Proof. vm_compute. repeat split; reflexivity. Qed.

(** ** Malformed input *)

(** C5, amended: when the text typed into the input is malformed JSON,
    the document becomes absent, one message built from the parser's is
    reported and the match list becomes empty; the ExpansionMap is left as
    it was. *)
Theorem malformed_input_keeps_expansion
    (JSON_parse : string -> ParseResult) (st : State) (text message : string) :
  reachable JSON_parse st ->
  text <> jsonInput st ->
  is_empty (trim text) = false ->
  JSON_parse text = SyntaxError message ->
  let st' := onJsonInput JSON_parse text st in
  parsedJson st' = JNull
  /\ error st' = "Invalid JSON: " +:+ message
  /\ searchResults st' = []
  /\ expandedSections st' = expandedSections st.
Proof.
  intros Hreach Hchange Hblank Hparse st'.
  destruct (reachable_consistent _ _ Hreach) as [Hdoc _].
  subst st'. unfold onJsonInput.
  destruct (String.eqb_spec text (jsonInput st)) as [|_]; [contradiction|].
  assert (Hst1 : parseEffect JSON_parse (withJsonInput text st)
                 = setParsed JNull ("Invalid JSON: " +:+ message)
                     (withJsonInput text st)).
  { unfold parseEffect. cbn [jsonInput withJsonInput].
    now rewrite Hblank, Hparse. }
  rewrite Hst1. cbn [parsedJson setParsed].
  destruct (same_value (parsedJson st) JNull) eqn:Hsame.
  - apply same_value_eq in Hsame. cbn. repeat split.
    apply Hdoc. now rewrite Hsame.
  - set (st1 := setParsed _ _ _).
    assert (Hrs : searchResults (searchEffect st1) = []).
    { rewrite searchEffect_results. cbn [parsedJson st1 setParsed truthy negb].
      now rewrite Bool.orb_true_r. }
    rewrite (navigationEffect_no_results _ Hrs).
    rewrite searchEffect_document, searchEffect_error, searchEffect_expanded.
    now repeat split.
Qed.

Lemma malformed_input_keeps_expansion_witness :
  let st := step sample_parse two_matches (ToggleSection "0") in
  let st' := onJsonInput sample_parse "{not json" st in
  parsedJson st' = JNull
  /\ error st' = "Invalid JSON: Unexpected token n in JSON at position 1"
  /\ searchResults st' = []
  /\ expandedSections st' = expandedSections st.
Proof.
  apply (malformed_input_keeps_expansion sample_parse
           (step sample_parse two_matches (ToggleSection "0"))
           "{not json" "Unexpected token n in JSON at position 1").
  - exists [JsonInput "[[[]],[]]"; SearchQuery "0"; ToggleSection "0"].
    reflexivity.
  - vm_compute. discriminate.
  - reflexivity.
  - reflexivity.
Defined.

(** C5 as stated fails: after the section [0] of the document was
    toggled, the malformed text leaves its entry in the ExpansionMap. *)
Lemma malformed_input_expansion_not_cleared :
  ~ (forall (JSON_parse : string -> ParseResult) (st : State)
            (text message : string),
        reachable JSON_parse st ->
        text <> jsonInput st ->
        is_empty (trim text) = false ->
        JSON_parse text = SyntaxError message ->
        expandedSections (onJsonInput JSON_parse text st) = ∅).
Proof.
  intros H.
  specialize (H sample_parse
                (run sample_parse [JsonInput "[[[]],[]]"; ToggleSection "0"])
                "{not json" "Unexpected token n in JSON at position 1").
  assert (Hlookup :
    expandedSections (onJsonInput sample_parse "{not json"
       (run sample_parse [JsonInput "[[[]],[]]"; ToggleSection "0"])) !! "0"
    = Some true) by (vm_compute; reflexivity).
  rewrite H in Hlookup.
  - rewrite lookup_empty in Hlookup. discriminate.
  - eexists. reflexivity.
  - vm_compute. discriminate.
  - reflexivity.
  - reflexivity.
Qed.

(** ** SearchIndexer *)

(** Induction over a document through the entries of its containers. *)
Lemma indexed_from_In start elems k v :
  In (k, v) (indexed_from start elems) -> In v elems.
Proof.
  revert start. induction elems as [|w elems IH]; intros start; cbn.
  - tauto.
  - intros [H|H]; [left; congruence | right; eauto].
Qed.

Lemma json_entries_ind (P : json -> Prop) :
  (forall obj, (forall k v, In (k, v) (entries obj) -> P v) -> P obj) ->
  forall obj, P obj.
Proof.
  intros step. fix self 1. intros obj. apply step.
  destruct obj as [| | | |elems|fields]; cbn [entries]; try (intros ? ? []).
  - intros k v Hin. apply indexed_from_In in Hin. revert v Hin.
    induction elems as [|w elems IH]; intros v; cbn.
    + tauto.
    + intros [<-|H]; [apply self | now apply IH].
  - induction fields as [|[k0 v0] fields IH]; intros k v; cbn.
    + tauto.
    + intros [H|H]; [injection H as _ <-; apply self | now apply (IH k)].
Qed.

Lemma searchInObject_entries query obj parent :
  searchInObject query obj parent
  = flat_map (fun kv =>
      entry_results query parent (fst kv) (snd kv)
        (searchInObject query (snd kv))) (entries obj).
Proof.
  destruct obj as [| | | |elems|fields]; cbn [searchInObject entries];
    try reflexivity.
  - generalize 0%nat.
    induction elems as [|v elems IH]; intros start; cbn; [reflexivity|].
    now rewrite IH.
  - induction fields as [|[k v] fields IH]; cbn; [reflexivity|].
    now rewrite IH.
Qed.

Lemma searchInObject_In query obj parent m :
  In m (searchInObject query obj parent) <->
  exists k v, In (k, v) (entries obj)
    /\ (In m (entry_matches query (child_path parent k) k v)
        \/ (is_container v = true
            /\ In m (searchInObject query v (child_path parent k)))).
Proof.
  rewrite searchInObject_entries, in_flat_map. split.
  - intros [[k v] [Hin Hm]]. exists k, v. split; [assumption|].
    unfold entry_results in Hm. cbn [fst snd] in Hm.
    apply in_app_iff in Hm as [Hm|Hm]; [now left|right].
    destruct (is_container v); [now split | destruct Hm].
  - intros (k & v & Hin & Hm). exists (k, v). split; [assumption|].
    unfold entry_results. cbn [fst snd]. apply in_app_iff.
    destruct Hm as [Hm|[Hc Hm]]; [now left|right]. now rewrite Hc.
Qed.

(** A property of every match pushed for an entry holds of every match
    of the traversal. *)
Lemma searchInObject_all query (P : SearchResult -> Prop) :
  (forall currentPath k v m,
      In m (entry_matches query currentPath k v) -> P m) ->
  forall obj parent m, In m (searchInObject query obj parent) -> P m.
Proof.
  intros Hentry obj. induction obj as [obj IH] using json_entries_ind.
  intros parent m Hm.
  apply searchInObject_In in Hm as (k & v & Hin & [Hm|[_ Hm]]).
  - eapply Hentry, Hm.
  - eapply IH; eassumption.
Qed.


Lemma path_from_snoc parent segs k :
  path_from parent (segs ++ [k]) = child_path (path_from parent segs) k.
Proof. unfold path_from. now rewrite fold_left_app. Qed.


Lemma insert_by_priority_In m r sorted :
  In m (insert_by_priority r sorted) <-> m = r \/ In m sorted.
Proof.
  induction sorted as [|r' rest IH]; cbn.
  - intuition congruence.
  - destruct (_ <=? _)%Z; cbn; [intuition congruence|].
    rewrite IH. intuition congruence.
Qed.

Lemma sort_by_priority_In m results :
  In m (sort_by_priority results) <-> In m results.
Proof.
  induction results as [|r rest IH]; cbn; [tauto|].
  rewrite insert_by_priority_In, IH. intuition congruence.
Qed.

Lemma searchMatches_eq doc q :
  searchMatches doc q
  = if is_empty (trim q) || negb (truthy doc) then [] else search doc q.
Proof. unfold searchMatches. now rewrite searchEffect_results. Qed.

Lemma searchMatches_In doc q m :
  In m (searchMatches doc q) ->
  In m (searchInObject (toLowerCase q) doc "").
Proof.
  rewrite searchMatches_eq. destruct (_ || _); [intros []|].
  unfold search. now rewrite sort_by_priority_In.
Qed.



(** *** Characters and digits *)

Lemma lower_char_idem c : lower_char (lower_char c) = lower_char c.
Proof. destruct c as [[] [] [] [] [] [] [] []]; reflexivity. Qed.

Lemma toLowerCase_idem s : toLowerCase (toLowerCase s) = toLowerCase s.
Proof.
  induction s as [|c s IH]; cbn; [reflexivity|].
  now rewrite lower_char_idem, IH.
Qed.









Lemma string_of_uint_digits d :
  all_digits (NilEmpty.string_of_uint d) = true.
Proof. induction d; cbn; auto. Qed.

Lemma toString_digits i : all_digits (toString i) = true.
Proof.
  unfold toString, NilZero.string_of_uint.
  destruct (Nat.to_uint i) eqn:E; try reflexivity;
    rewrite <- E at 1; try (rewrite <- E); apply string_of_uint_digits.
Qed.

Lemma toString_nonempty i : is_empty (toString i) = false.
Proof.
  unfold toString, NilZero.string_of_uint.
  destruct (Nat.to_uint i); reflexivity.
Qed.


(** *** Priorities *)

Lemma entry_matches_priority query currentPath k v m :
  In m (entry_matches query currentPath k v) ->
  (priority m = 5 \/ priority m = 1)%Z
  /\ (type m = KeyMatch ->
      (priority m = 5%Z <-> toLowerCase (value m) = query))
  /\ (type m = ValueMatch -> (priority m = 5%Z <-> value m = query)).
Proof.
  unfold entry_matches. intros [Hm|Hm]%in_app_iff.
  - destruct (includes _ _); [|destruct Hm].
    destruct Hm as [<-|[]]. cbn.
    destruct (String.eqb_spec (toLowerCase k) query);
      repeat split; auto; try discriminate; try lia; congruence.
  - destruct v as [| | |s| |]; try destruct Hm.
    destruct (includes _ _); [|destruct Hm].
    destruct Hm as [<-|[]]. cbn.
    destruct (String.eqb_spec s query);
      repeat split; auto; try discriminate; try lia; congruence.
Qed.


(** C1, amended: every match has priority 5 or 1; a key match has
    priority 5 exactly when its matchedText lowercased equals the query
    lowercased, the query taken as typed and not trimmed; a value match
    of priority 5 has a matchedText whose lowercase equals the lowercased
    query, and a value match whose matchedText is the lowercased query
    itself has priority 5. *)
Theorem priority_rule (doc : json) (q : string) (m : SearchResult) :
  In m (searchMatches doc q) ->
  (priority m = 5 \/ priority m = 1)%Z
  /\ (type m = KeyMatch ->
      (priority m = 5%Z <-> toLowerCase (value m) = toLowerCase q))
  /\ (type m = ValueMatch ->
      (priority m = 5%Z -> toLowerCase (value m) = toLowerCase q)
      /\ (value m = toLowerCase q -> priority m = 5%Z)).
Proof.
  intros Hm%searchMatches_In.
  apply (searchInObject_all (toLowerCase q) (fun m =>
    (priority m = 5 \/ priority m = 1)%Z
    /\ (type m = KeyMatch ->
        (priority m = 5%Z <-> toLowerCase (value m) = toLowerCase q))
    /\ (type m = ValueMatch -> (priority m = 5%Z <-> value m = toLowerCase q))))
    in Hm.
  - destruct Hm as (H51 & Hkey & Hval). repeat split; auto.
    + now apply Hkey.
    + now apply Hkey.
    + intros H5. apply Hval in H5; [|assumption].
      rewrite H5. apply toLowerCase_idem.
    + intros Heq. now apply Hval.
  - intros currentPath k v m'. apply entry_matches_priority.
Qed.

Lemma priority_rule_witness :
  let m := {| type := KeyMatch; path := "0"; value := "0"; priority := 5 |} in
  In m (searchMatches (JArray [JNumber 7; JString "0"]) "0")
  /\ (priority m = 5%Z <-> toLowerCase (value m) = toLowerCase "0").
Proof.
  intros m.
  assert (Hin : In m (searchMatches (JArray [JNumber 7; JString "0"]) "0"))
    by (vm_compute; left; reflexivity).
  split; [exact Hin|].
  exact (proj1 (proj2 (priority_rule _ _ _ Hin)) eq_refl).
Defined.

(** C1 as stated fails: the query is compared as typed.  For the document
    [{" id": 7}] and the query [" id"] the key match has priority 5, and
    its matchedText lowercased, [" id"], is not the trimmed query
    lowercased, ["id"]. *)
Lemma priority_rule_untrimmed :
  ~ (forall (doc : json) (q : string) (m : SearchResult),
        In m (searchMatches doc q) ->
        (priority m = 5%Z <-> toLowerCase (value m) = toLowerCase (trim q))).
Proof.
  intros H.
  specialize (H (JObject [(" id", JNumber 7)]) " id"
    {| type := KeyMatch; path := " id"; value := " id"; priority := 5 |}).
  assert (Heq : toLowerCase " id" = toLowerCase (trim " id")).
  { apply H; [vm_compute; left|]; reflexivity. }
  vm_compute in Heq. discriminate Heq.
Qed.

(** The value comparison of [searchInObject] is [value === query], without
    the [toLowerCase()] of the key comparison: in the spec's scenario 2
    the value ["Bob"] matches the query [bob] with priority 1. *)
Lemma value_priority_case_sensitive :
  searchMatches
    (JObject [("name", JString "Bob");
              ("nested", JObject [("name", JString "bob")])]) "bob"
  = [ {| type := ValueMatch; path := "nested.name"; value := "bob";
         priority := 5 |};
      {| type := ValueMatch; path := "name"; value := "Bob";
         priority := 1 |} ].
Proof. reflexivity. Qed.

(** *** The match set *)




(** *** Array positions as keys *)



(** ** Paths as location identifiers *)

Lemma split_nonempty s : split s <> [].
Proof.
  induction s as [|c s IH]; cbn; [discriminate|].
  destruct (Ascii.eqb c "."); [discriminate|].
  destruct (split s); [contradiction|discriminate].
Qed.

Lemma append_cons c a b : String c a +:+ b = String c (a +:+ b).
Proof. reflexivity. Qed.

Lemma append_nil b : "" +:+ b = b.
Proof. reflexivity. Qed.

Lemma split_append_dot a b : split (a +:+ "." +:+ b) = split a ++ split b.
Proof.
  induction a as [|c a IH].
  - reflexivity.
  - rewrite append_cons. cbn [split]. rewrite IH.
    destruct (Ascii.eqb c "."); [reflexivity|].
    destruct (split a) as [|h t] eqn:E; [now apply split_nonempty in E|].
    reflexivity.
Qed.

Lemma split_no_dot s : no_dot s = true -> split s = [s].
Proof.
  induction s as [|c s IH]; cbn; [reflexivity|].
  intros [Hc Hs]%andb_prop. apply negb_true_iff in Hc. rewrite Hc.
  now rewrite IH.
Qed.

Lemma child_path_nonempty parent k :
  is_empty parent = false -> child_path parent k = parent +:+ "." +:+ k.
Proof. unfold child_path. now intros ->. Qed.

Lemma append_not_empty a b : is_empty a = false -> is_empty (a +:+ b) = false.
Proof. now destruct a. Qed.

Lemma split_path_from parent segs :
  is_empty parent = false ->
  Forall (fun k => no_dot k = true) segs ->
  split (path_from parent segs) = split parent ++ segs.
Proof.
  intros Hparent Hsegs. revert parent Hparent.
  induction Hsegs as [|k segs Hk _ IH]; intros parent Hparent.
  - cbn. now rewrite app_nil_r.
  - unfold path_from. cbn [fold_left]. fold (path_from (child_path parent k) segs).
    rewrite child_path_nonempty by assumption.
    rewrite IH by now apply append_not_empty.
    rewrite split_append_dot, (split_no_dot k Hk), <- app_assoc. reflexivity.
Qed.

Lemma plain_key_parts k :
  plain_key k = true -> is_empty k = false /\ no_dot k = true.
Proof.
  unfold plain_key. intros [H1 H2]%andb_prop.
  apply negb_true_iff in H1. now split.
Qed.

(** The path string of a chain of plain keys splits back into the chain. *)
Lemma split_path_of segs :
  segs <> [] -> Forall (fun k => plain_key k = true) segs ->
  split (path_of segs) = segs.
Proof.
  destruct segs as [|k segs]; [congruence|]. intros _ Hall.
  inversion Hall as [|? ? Hk Hrest]; subst.
  apply plain_key_parts in Hk as [Hne Hnd].
  unfold path_of, path_from. cbn [fold_left].
  change (child_path "" k) with k. fold (path_from k segs).
  rewrite split_path_from, (split_no_dot k Hnd); [reflexivity|assumption|].
  eapply Forall_impl; [exact Hrest|]. intros a Ha.
  now apply plain_key_parts in Ha.
Qed.

Lemma digits_no_dot s : all_digits s = true -> no_dot s = true.
Proof.
  induction s as [|c s IH]; cbn; [reflexivity|].
  intros [Hc Hs]%andb_prop. rewrite IH by assumption.
  destruct c as [[] [] [] [] [] [] [] []]; vm_compute in Hc |- *; congruence.
Qed.

Lemma toString_plain i : plain_key (toString i) = true.
Proof.
  unfold plain_key.
  now rewrite toString_nonempty, (digits_no_dot _ (toString_digits i)).
Qed.

Lemma indexed_from_keys start elems k v :
  In (k, v) (indexed_from start elems) -> exists i, k = toString i.
Proof.
  revert start. induction elems as [|w elems IH]; intros start; cbn.
  - tauto.
  - intros [[= <- _]|H]; eauto.
Qed.

Lemma plain_keys_entries obj k v :
  plain_keys obj = true -> In (k, v) (entries obj) ->
  plain_key k = true /\ plain_keys v = true.
Proof.
  destruct obj as [| | | |elems|fields]; cbn [entries plain_keys];
    try (intros _ []).
  - intros Hall Hin. split.
    + apply indexed_from_keys in Hin as [i ->]. apply toString_plain.
    + apply indexed_from_In in Hin.
      rewrite forallb_forall in Hall. now apply Hall.
  - intros Hall Hin. rewrite forallb_forall in Hall.
    specialize (Hall _ Hin). cbn in Hall. now apply andb_prop in Hall.
Qed.

Lemma locations_entries obj chain parent :
  locations obj chain parent
  = flat_map (fun kv =>
      (chain ++ [fst kv], child_path parent (fst kv))
      :: (if is_container (snd kv)
          then locations (snd kv) (chain ++ [fst kv])
                 (child_path parent (fst kv))
          else [])) (entries obj).
Proof.
  destruct obj as [| | | |elems|fields]; cbn [locations entries];
    try reflexivity.
  - generalize 0%nat.
    induction elems as [|v elems IH]; intros start; cbn; [reflexivity|].
    now rewrite IH.
  - induction fields as [|[k v] fields IH]; cbn; [reflexivity|].
    now rewrite IH.
Qed.

(** Every location the traversal lists below [chain] and [parent] extends
    the chain by the keys followed and carries the path string built from
    them; in a document with plain keys these keys are plain. *)
Lemma locations_chain obj chain parent c p :
  In (c, p) (locations obj chain parent) ->
  exists segs, segs <> [] /\ c = chain ++ segs /\ p = path_from parent segs
    /\ (plain_keys obj = true -> Forall (fun k => plain_key k = true) segs).
Proof.
  revert chain parent.
  induction obj as [obj IH] using json_entries_ind. intros chain parent.
  rewrite locations_entries, in_flat_map.
  intros [[k v] [Hin [Hhere|Hbelow]]]; cbn [fst snd] in *.
  - injection Hhere as <- <-. exists [k]. repeat split; [discriminate|].
    intros Hplain. constructor; [|constructor].
    eapply plain_keys_entries; eassumption.
  - destruct (is_container v); [|destruct Hbelow].
    apply (IH k v Hin) in Hbelow as (segs & Hne & -> & -> & Hall).
    exists (k :: segs). split; [discriminate|].
    split; [now rewrite <- app_assoc|]. split; [reflexivity|].
    intros Hplain. destruct (plain_keys_entries _ _ _ Hplain Hin).
    constructor; auto.
Qed.

Lemma entry_matches_path query currentPath k v m :
  In m (entry_matches query currentPath k v) -> path m = currentPath.
Proof.
  unfold entry_matches. intros [Hm|Hm]%in_app_iff.
  - destruct (includes _ _); [|destruct Hm]. now destruct Hm as [<-|[]].
  - destruct v as [| | |s| |]; try destruct Hm.
    destruct (includes _ _); [|destruct Hm]. now destruct Hm as [<-|[]].
Qed.

(** The path of every search match is the path string of a location. *)
Lemma searchInObject_locations query obj chain parent m :
  In m (searchInObject query obj parent) ->
  exists c, In (c, path m) (locations obj chain parent).
Proof.
  revert chain parent.
  induction obj as [obj IH] using json_entries_ind. intros chain parent Hm.
  apply searchInObject_In in Hm as (k & v & Hin & Hm).
  setoid_rewrite locations_entries. setoid_rewrite in_flat_map.
  destruct Hm as [Hm|[Hc Hm]].
  - apply entry_matches_path in Hm. exists (chain ++ [k]), (k, v).
    split; [assumption|]. left. cbn [fst snd]. now rewrite Hm.
  - destruct (IH k v Hin (chain ++ [k]) _ Hm) as [c Hc'].
    exists c, (k, v). split; [assumption|]. right. cbn [fst snd].
    now rewrite Hc.
Qed.

(** C8, amended: in a document whose object keys are all non-empty and
    free of dots, every path string the traversal assigns identifies one
    location: two locations with the same path string are reached by the
    same chain of keys and indices. *)
Theorem path_identifies_location
    (doc : json) (chain1 chain2 : list string) (p : string) :
  plain_keys doc = true ->
  In (chain1, p) (locations doc [] "") ->
  In (chain2, p) (locations doc [] "") ->
  chain1 = chain2.
Proof.
  intros Hplain H1 H2.
  apply locations_chain in H1 as (segs1 & Hne1 & -> & Hp1 & Hall1).
  apply locations_chain in H2 as (segs2 & Hne2 & -> & Hp2 & Hall2).
  cbn [app]. fold (path_of segs1) in Hp1. fold (path_of segs2) in Hp2.
  rewrite <- (split_path_of segs1), <- (split_path_of segs2); auto.
  congruence.
Qed.

Lemma path_identifies_location_witness :
  plain_keys nested_arrays = true
  /\ In (["a"; "1"; "b"], "a.1.b") (locations nested_arrays [] "")
  /\ (forall chain, In (chain, "a.1.b") (locations nested_arrays [] "") ->
      chain = ["a"; "1"; "b"]).
Proof.
  assert (Hplain : plain_keys nested_arrays = true) by reflexivity.
  assert (Hin : In (["a"; "1"; "b"], "a.1.b") (locations nested_arrays [] ""))
    by (vm_compute; tauto).
  split; [exact Hplain|]. split; [exact Hin|].
  intros chain Hchain.
  exact (path_identifies_location nested_arrays chain ["a"; "1"; "b"] "a.1.b"
           Hplain Hchain Hin).
Defined.

(** C8 as stated fails: a key holding a dot is joined without escaping.
    In [{"a.b": 1, "a": {"b": 2}}] the top-level key [a.b] and the key [b]
    below [a] are two locations with the one path string [a.b]. *)
Lemma path_collision :
  ~ (forall (doc : json) (chain1 chain2 : list string) (p : string),
        In (chain1, p) (locations doc [] "") ->
        In (chain2, p) (locations doc [] "") ->
        chain1 = chain2).
Proof.
  intros H.
  specialize (H (JObject [("a.b", JNumber 1);
                          ("a", JObject [("b", JNumber 2)])])
                ["a.b"] ["a"; "b"] "a.b").
  discriminate H; vm_compute; tauto.
Qed.

(** An empty key collides as well: the path of the empty key is the empty
    string, which the traversal below it takes for "no parent", so in
    [{"": {"x": 1}, "x": 2}] both keys [x] get the path [x]. *)
Lemma path_collision_empty_key :
  In ([""; "x"], "x")
     (locations (JObject [("", JObject [("x", JNumber 1)]); ("x", JNumber 2)])
        [] "")
  /\ In (["x"], "x")
       (locations (JObject [("", JObject [("x", JNumber 1)]); ("x", JNumber 2)])
          [] "").
Proof. vm_compute. tauto. Qed.

(** ** ExpansionState: the batch of [toggleSimilarStructures] *)

Lemma assign_keeps key (updates : gmap string bool) k :
  updates !! k = Some true -> assign key true updates !! k = Some true.
Proof.
  intros Hk. unfold assign.
  destruct (String.eqb key "__proto__"), (updates !! key);
    try exact Hk; rewrite lookup_insert; case_decide; (reflexivity || exact Hk).
Qed.

Lemma assign_eq key b (updates : gmap string bool) :
  key <> "__proto__" -> assign key b updates !! key = Some b.
Proof.
  intros Hk. unfold assign.
  destruct (String.eqb_spec key "__proto__"); [contradiction|].
  apply lookup_insert_eq.
Qed.

Lemma assign_ne key b (updates : gmap string bool) k :
  key <> k -> assign key b updates !! k = updates !! k.
Proof.
  intros Hk. unfold assign.
  destruct (String.eqb key "__proto__"), (updates !! key);
    try reflexivity; now apply lookup_insert_ne.
Qed.

Lemma force_prefixes_keeps parts currentPath (updates : gmap string bool) k :
  updates !! k = Some true ->
  force_prefixes parts currentPath updates !! k = Some true.
Proof.
  revert currentPath updates.
  induction parts as [|part rest IH]; intros currentPath updates Hk; cbn.
  - exact Hk.
  - now apply IH, assign_keeps.
Qed.

Lemma ensureParentPathsExpanded_keeps q (updates : gmap string bool) k :
  updates !! k = Some true ->
  ensureParentPathsExpanded q updates !! k = Some true.
Proof. apply force_prefixes_keeps. Qed.

(** One round of the [forEach] over the siblings. *)
Lemma similar_updates_unfold p expand targets :
  similar_updates p expand targets
  = fold_left (fun updates q =>
        let updates' := assign q expand updates in
        if expand then ensureParentPathsExpanded q updates' else updates')
      targets
      (if expand then ensureParentPathsExpanded p (assign p expand ∅) else ∅).
Proof. reflexivity. Qed.

Lemma expand_round_keeps targets (updates : gmap string bool) k :
  updates !! k = Some true ->
  fold_left (fun updates q =>
      ensureParentPathsExpanded q (assign q true updates)) targets updates !! k
  = Some true.
Proof.
  revert updates. induction targets as [|q rest IH]; intros updates Hk; cbn.
  - exact Hk.
  - now apply IH, ensureParentPathsExpanded_keeps, assign_keeps.
Qed.

Lemma expand_round_targets targets (updates : gmap string bool) s :
  In s targets -> s <> "__proto__" ->
  fold_left (fun updates q =>
      ensureParentPathsExpanded q (assign q true updates)) targets updates !! s
  = Some true.
Proof.
  intros Hin Hs.
  revert updates Hin. induction targets as [|q rest IH]; intros updates; cbn.
  - tauto.
  - intros [->|Hin]; [|now apply IH].
    now apply expand_round_keeps, ensureParentPathsExpanded_keeps, assign_eq.
Qed.

Lemma collapse_round_others targets (updates : gmap string bool) k :
  ~ In k targets ->
  fold_left (fun updates q => assign q false updates) targets updates !! k
  = updates !! k.
Proof.
  revert updates. induction targets as [|q rest IH]; intros updates; cbn.
  - reflexivity.
  - intros Hk. rewrite IH by tauto. apply assign_ne. tauto.
Qed.

Lemma collapse_round_targets targets (updates : gmap string bool) k :
  In k targets -> k <> "__proto__" ->
  fold_left (fun updates q => assign q false updates) targets updates !! k
  = Some false.
Proof.
  intros Hin Hk.
  revert updates Hin. induction targets as [|q rest IH]; intros updates; cbn.
  - tauto.
  - destruct (in_dec string_dec k rest) as [Hrest|Hrest]; [auto|].
    intros [->|Hin]; [|contradiction].
    rewrite collapse_round_others by assumption. now apply assign_eq.
Qed.

Lemma similar_updates_targets p expand targets s :
  In s targets -> s <> "__proto__" ->
  similar_updates p expand targets !! s = Some expand.
Proof.
  intros Hin Hs. rewrite similar_updates_unfold. destruct expand.
  - now apply expand_round_targets.
  - now apply collapse_round_targets.
Qed.

Lemma similar_updates_self p targets :
  p <> "__proto__" ->
  similar_updates p true targets !! p = Some true.
Proof.
  intros Hp. rewrite similar_updates_unfold.
  now apply expand_round_keeps, ensureParentPathsExpanded_keeps, assign_eq.
Qed.


Lemma toggleSimilarStructures_targets p expand st :
  toggleSimilarStructures p expand st
  = match similar_targets (parsedJson st) (expandedSections st) p with
    | [] => st
    | targets =>
        setExpandedSections
          (similar_updates p expand targets ∪ expandedSections st) st
    end.
Proof.
  unfold toggleSimilarStructures, similar_targets.
  destruct (findNestedSiblings _ _); reflexivity.
Qed.

(** ** A path is never its own sibling *)

Lemma split_all_no_dot s : Forall (fun k => no_dot k = true) (split s).
Proof.
  induction s as [|c s IH]; cbn.
  - repeat constructor.
  - destruct (Ascii.eqb c ".") eqn:Hc; [now constructor|].
    destruct (split s) as [|h t]; [repeat constructor; cbn; now rewrite Hc|].
    inversion IH; subst. constructor; [|assumption].
    cbn. now rewrite Hc.
Qed.

Lemma split_join parts :
  parts <> [] -> Forall (fun k => no_dot k = true) parts ->
  split (join parts) = parts.
Proof.
  induction parts as [|k rest IH]; [congruence|]. intros _ Hall.
  inversion Hall as [|? ? Hk Hrest]; subst.
  destruct rest as [|k' rest].
  - cbn. now apply split_no_dot.
  - change (join (k :: k' :: rest)) with (k +:+ "." +:+ join (k' :: rest)).
    rewrite split_append_dot, (split_no_dot k Hk), IH; [reflexivity| |assumption].
    discriminate.
Qed.


Lemma parseInt_toString i : parseInt (toString i) = i.
Proof.
  unfold parseInt, toString.
  destruct (Nat.to_uint i) eqn:E;
    try (rewrite NilZero.usu by discriminate; rewrite <- E;
         apply DecimalNat.Unsigned.of_to).
  rewrite NilZero.usu_nil.
  rewrite <- (DecimalNat.Unsigned.of_to i), E. reflexivity.
Qed.


Lemma index_positions_from_In start parts pos :
  In pos (index_positions_from start parts) ->
  exists j, pos = (start + j)%nat /\ (j < List.length parts)%nat
            /\ is_index (nth j parts "") = true.
Proof.
  revert start. induction parts as [|part rest IH]; intros start; cbn.
  - tauto.
  - destruct (is_index part) eqn:Hpart.
    + intros [<-|Hin].
      * exists 0%nat. repeat split; [lia|lia|assumption].
      * apply IH in Hin as (j & -> & Hj & Hidx).
        exists (S j). repeat split; [lia|lia|assumption].
    + intros Hin. apply IH in Hin as (j & -> & Hj & Hidx).
      exists (S j). repeat split; [lia|lia|assumption].
Qed.

Lemma index_positions_In parts pos :
  In pos (index_positions parts) ->
  (pos < List.length parts)%nat /\ is_index (nth pos parts "") = true.
Proof.
  intros (j & -> & Hj & Hidx)%index_positions_from_In. now split.
Qed.

Lemma first_index_position_spec parts ip :
  first_index_position parts = Some ip ->
  (ip < List.length parts)%nat /\ is_index (nth ip parts "") = true.
Proof.
  unfold first_index_position. intros H. apply index_positions_In.
  destruct (index_positions parts); [discriminate|].
  injection H as ->. now left.
Qed.







(** ** No path of a batch is the key [__proto__] *)

Lemma toString_segment_not_proto s i :
  In (toString i) (split s) -> s <> "__proto__".
Proof.
  intros Hin ->. change (split "__proto__") with ["__proto__"] in Hin.
  destruct Hin as [H|[]]. pose proof (toString_digits i) as Hd.
  rewrite <- H in Hd. vm_compute in Hd. discriminate.
Qed.









(* ===================================================================== *)
(** * Further properties                                                  *)
(* ===================================================================== *)

(** ** Order of the match list *)

Lemma insert_after_fives r fives ones :
  priority r = 1%Z ->
  Forall (fun m => priority m = 5%Z) fives ->
  Forall (fun m => priority m = 1%Z) ones ->
  insert_by_priority r (fives ++ ones) = fives ++ r :: ones.
Proof.
  intros Hr Hfives Hones.
  induction Hfives as [|m fives Hm _ IH]; cbn.
  - destruct Hones as [|m ones Hm _]; cbn; [reflexivity|].
    rewrite Hm, Hr. reflexivity.
  - rewrite Hm, Hr. cbn. now rewrite IH.
Qed.

Lemma insert_before_all r sorted :
  priority r = 5%Z ->
  Forall (fun m => priority m = 5%Z \/ priority m = 1%Z) sorted ->
  insert_by_priority r sorted = r :: sorted.
Proof.
  intros Hr Hall. destruct Hall as [|m sorted Hm _]; cbn; [reflexivity|].
  rewrite Hr. destruct Hm as [-> | ->]; reflexivity.
Qed.

Lemma filter_priority_Forall (z : Z) (l : list SearchResult) :
  Forall (fun m => priority m = z)
         (List.filter (fun m => (priority m =? z)%Z) l).
Proof.
  apply List.Forall_forall. intros m [_ Hm]%filter_In. now apply Z.eqb_eq.
Qed.

Lemma sort_two_priorities results :
  Forall (fun m => priority m = 5%Z \/ priority m = 1%Z) results ->
  sort_by_priority results
  = List.filter (fun m => (priority m =? 5)%Z) results
    ++ List.filter (fun m => (priority m =? 1)%Z) results.
Proof.
  induction 1 as [|r rest Hr Hrest IH]; cbn [sort_by_priority List.filter].
  - reflexivity.
  - rewrite IH. destruct Hr as [Hr|Hr]; rewrite Hr; cbn [Z.eqb Pos.eqb app].
    + apply insert_before_all; [assumption|].
      apply Forall_app. split.
      * eapply Forall_impl; [apply filter_priority_Forall|]. cbn. tauto.
      * eapply Forall_impl; [apply filter_priority_Forall|]. cbn. tauto.
    + apply insert_after_fives; [assumption|apply filter_priority_Forall..].
Qed.

(** X1: the ranked match list is the traversal's list with the matches of
    priority 5 moved to the front: first the exact matches in traversal
    order, then the others in traversal order. *)
Theorem search_exact_matches_first (doc : json) (q : string) :
  let found := searchInObject (toLowerCase q) doc "" in
  search doc q
  = List.filter (fun m => (priority m =? 5)%Z) found
    ++ List.filter (fun m => (priority m =? 1)%Z) found.
Proof.
  intros found. unfold search. fold found. apply sort_two_priorities.
  apply List.Forall_forall. intros m Hm.
  apply (searchInObject_all (toLowerCase q)
           (fun m => priority m = 5%Z \/ priority m = 1%Z)) in Hm;
    [assumption|].
  intros currentPath k v m' Hm'.
  now apply entry_matches_priority in Hm'.
Qed.

(** ** Toggling one section *)

(** X2: [toggleSection(path)] flips how the section reads and stores the
    new reading as the path's own entry; it leaves every other entry, the
    document and the search state alone, and toggling twice restores the
    reading.  A path without an entry reads as collapsed and is stored as
    expanded, unless it is the name of a member of [Object.prototype]
    ([constructor], [toString], ...): the read then finds that member, the
    section reads as expanded and is stored as collapsed. *)
Theorem toggleSection_flips (st : State) (p : string) :
  isExpanded (toggleSection p st) p = negb (isExpanded st p)
  /\ isExpanded (toggleSection p (toggleSection p st)) p = isExpanded st p
  /\ expandedSections (toggleSection p st) !! p = Some (negb (isExpanded st p))
  /\ (expandedSections st !! p = None ->
      isExpanded st p = object_prototype_member p
      /\ expandedSections (toggleSection p st) !! p
         = Some (negb (object_prototype_member p)))
  /\ (forall k, k <> p ->
        expandedSections (toggleSection p st) !! k = expandedSections st !! k)
  /\ parsedJson (toggleSection p st) = parsedJson st
  /\ searchResults (toggleSection p st) = searchResults st
  /\ currentSearchIndex (toggleSection p st) = currentSearchIndex st.
Proof.
  assert (Hstore : forall st, expandedSections (toggleSection p st) !! p
                              = Some (negb (isExpanded st p))).
  { intros st0. unfold isExpanded, toggleSection.
    cbn [expandedSections setExpandedSections]. apply lookup_insert_eq. }
  assert (Hflip : forall st, isExpanded (toggleSection p st) p
                             = negb (isExpanded st p)).
  { intros st0. unfold isExpanded at 1, read_entry. now rewrite Hstore. }
  assert (Habsent : expandedSections st !! p = None ->
                    isExpanded st p = object_prototype_member p).
  { intros Hnone. unfold isExpanded, read_entry. now rewrite Hnone. }
  repeat split.
  - apply Hflip.
  - rewrite !Hflip. apply Bool.negb_involutive.
  - apply Hstore.
  - now apply Habsent.
  - rewrite Hstore, Habsent; [reflexivity|assumption].
  - intros k Hk. unfold toggleSection.
    cbn [expandedSections setExpandedSections].
    now apply lookup_insert_ne.
Qed.

Lemma toggleSection_flips_witness :
  isExpanded initial "constructor" = true
  /\ expandedSections (toggleSection "constructor" initial) !! "constructor"
     = Some false.
Proof.
  apply (proj1 (proj2 (proj2 (proj2
           (toggleSection_flips initial "constructor"))))).
  reflexivity.
Defined.

(** ** Paths without an array index *)

(** X3: for a path none of whose segments is a string of digits,
    [toggleSimilarStructures] finds no sibling, directly or by pattern,
    and leaves the state unchanged whatever the document and the
    ExpansionMap hold. *)
Theorem toggleSimilarStructures_without_index
    (st : State) (p : string) (expand : bool) :
  index_positions (split p) = [] ->
  similar_targets (parsedJson st) (expandedSections st) p = []
  /\ toggleSimilarStructures p expand st = st.
Proof.
  intros Hnone.
  assert (Hnested : findNestedSiblings (parsedJson st) p = []).
  { unfold findNestedSiblings. now rewrite Hnone. }
  assert (Hpattern : findSimilarStructurePaths (expandedSections st) p = []).
  { unfold findSimilarStructurePaths, findSiblingArrayItems.
    destruct (is_empty p); [reflexivity|]. now rewrite Hnone. }
  split.
  - unfold similar_targets. now rewrite Hnested.
  - unfold toggleSimilarStructures. now rewrite Hnested, Hpattern.
Qed.

Lemma toggleSimilarStructures_without_index_witness :
  index_positions (split "a.b") = []
  /\ toggleSimilarStructures "a.b" true siblings_open = siblings_open.
Proof.
  split; [reflexivity|].
  exact (proj2 (toggleSimilarStructures_without_index siblings_open "a.b" true
                  eq_refl)).
Defined.

(** ** Derived state *)

Lemma parseEffect_reads_input JSON_parse st :
  jsonInput (parseEffect JSON_parse st) = jsonInput st
  /\ searchQuery (parseEffect JSON_parse st) = searchQuery st
  /\ searchResults (parseEffect JSON_parse st) = searchResults st.
Proof.
  unfold parseEffect. destruct (is_empty _); [now repeat split|].
  destruct (JSON_parse _); now repeat split.
Qed.

(** The document and the message that the parse effect computes from the
    input text. *)
Lemma parseEffect_outcome JSON_parse st st0 :
  jsonInput st0 = jsonInput st ->
  parsedJson (parseEffect JSON_parse st0) = parsedJson (parseEffect JSON_parse st)
  /\ error (parseEffect JSON_parse st0) = error (parseEffect JSON_parse st).
Proof.
  intros Hin. unfold parseEffect. rewrite Hin.
  destruct (is_empty _); [now split|]. destruct (JSON_parse _); now split.
Qed.

Lemma searchEffect_input st :
  jsonInput (searchEffect st) = jsonInput st
  /\ searchQuery (searchEffect st) = searchQuery st.
Proof. unfold searchEffect. destruct (_ || _); now split. Qed.


Lemma same_inputs_in_sync JSON_parse st st' :
  same_inputs st st' -> in_sync JSON_parse st -> in_sync JSON_parse st'.
Proof.
  intros (Hin & Hdoc & Herr & Hq & Hrs) (Hd & He & Hr).
  destruct (parseEffect_outcome JSON_parse st st' Hin) as [Hd' He'].
  unfold in_sync. rewrite Hd', He', Hdoc, Herr, Hq, Hrs. now repeat split.
Qed.

Ltac same_inputs_cases :=
  unfold same_inputs;
  repeat match goal with
         | |- context [if ?b then _ else _] => destruct b
         | |- context [match ?x with _ => _ end] => destruct x
         end;
  repeat split; reflexivity.

Lemma navigationEffect_same_inputs st : same_inputs st (navigationEffect st).
Proof. unfold navigationEffect. same_inputs_cases. Qed.

Lemma same_inputs_trans st1 st2 st3 :
  same_inputs st1 st2 -> same_inputs st2 st3 -> same_inputs st1 st3.
Proof. unfold same_inputs. intuition congruence. Qed.

Lemma next_same_inputs st : same_inputs st (navigateToNextResult st).
Proof.
  unfold navigateToNextResult.
  destruct (_ =? _)%nat; [now repeat split|].
  destruct (_ =? _)%Z; [now repeat split|].
  eapply same_inputs_trans; [|apply navigationEffect_same_inputs].
  now repeat split.
Qed.

Lemma prev_same_inputs st : same_inputs st (navigateToPrevResult st).
Proof.
  unfold navigateToPrevResult.
  destruct (_ =? _)%nat; [now repeat split|].
  destruct (_ =? _)%Z; [now repeat split|].
  eapply same_inputs_trans; [|apply navigationEffect_same_inputs].
  now repeat split.
Qed.

Lemma toggleSimilarStructures_same_inputs p expand st :
  same_inputs st (toggleSimilarStructures p expand st).
Proof.
  unfold toggleSimilarStructures.
  destruct (findNestedSiblings _ _); [|now repeat split].
  destruct (findSimilarStructurePaths _ _); now repeat split.
Qed.

Lemma effects_in_sync JSON_parse st :
  parsedJson st = parsedJson (parseEffect JSON_parse st) ->
  error st = error (parseEffect JSON_parse st) ->
  in_sync JSON_parse (navigationEffect (searchEffect st)).
Proof.
  intros Hd He.
  apply (same_inputs_in_sync _ (searchEffect st));
    [apply navigationEffect_same_inputs|].
  destruct (searchEffect_input st) as [Hin Hq].
  destruct (parseEffect_outcome JSON_parse st (searchEffect st) Hin) as [Hd' He'].
  unfold in_sync.
  rewrite Hd', He', searchEffect_document, searchEffect_error, Hq.
  repeat split; try assumption.
  now rewrite searchEffect_results, searchMatches_eq.
Qed.

Lemma step_in_sync JSON_parse st e :
  in_sync JSON_parse st -> in_sync JSON_parse (step JSON_parse st e).
Proof.
  intros Hsync. destruct e as [text|q| | |p|p expand]; cbn [step].
  - unfold onJsonInput. destruct (String.eqb _ _); [assumption|].
    set (st1 := parseEffect JSON_parse (withJsonInput text st)).
    destruct (parseEffect_reads_input JSON_parse (withJsonInput text st))
      as (Hin & Hq & Hrs). fold st1 in Hin, Hq, Hrs.
    destruct (parseEffect_outcome JSON_parse (withJsonInput text st) st1 Hin)
      as [Hd He]. fold st1 in Hd, He.
    destruct (same_value _ _) eqn:Hsame.
    + apply same_value_eq in Hsame. destruct Hsync as (_ & _ & Hr).
      unfold in_sync. rewrite Hd, He, Hrs, Hq, <- Hsame.
      now repeat split.
    + apply effects_in_sync; congruence.
  - unfold onSearchQuery. destruct (String.eqb _ _); [assumption|].
    destruct Hsync as (Hd & He & _).
    destruct (parseEffect_outcome JSON_parse st (withSearchQuery q st) eq_refl)
      as [Hd' He'].
    apply effects_in_sync; [rewrite Hd'; exact Hd | rewrite He'; exact He].
  - eapply same_inputs_in_sync; [apply next_same_inputs|assumption].
  - eapply same_inputs_in_sync; [apply prev_same_inputs|assumption].
  - eapply same_inputs_in_sync; [|eassumption]. now repeat split.
  - eapply same_inputs_in_sync;
      [apply toggleSimilarStructures_same_inputs|assumption].
Qed.

(** X4: in every state the component can reach, the document and the
    error message are the ones the parse effect computes from the current
    input text, and the match list is the one the search effect computes
    from the current document and query: next, previous and the toggles
    never leave them stale. *)
Theorem derived_state_in_sync
    (JSON_parse : string -> ParseResult) (st : State) :
  reachable JSON_parse st ->
  parsedJson st = parsedJson (parseEffect JSON_parse st)
  /\ error st = error (parseEffect JSON_parse st)
  /\ searchResults st = searchMatches (parsedJson st) (searchQuery st).
Proof.
  intros [events ->]. unfold run.
  assert (Hinit : in_sync JSON_parse initial) by now repeat split.
  revert Hinit. generalize initial.
  induction events as [|e events IH]; intros st0 H0; cbn [fold_left].
  - exact H0.
  - apply IH. now apply step_in_sync.
Qed.

Lemma derived_state_in_sync_witness :
  searchResults (step sample_parse two_matches NextResult)
  = searchMatches (parsedJson (step sample_parse two_matches NextResult))
      (searchQuery (step sample_parse two_matches NextResult)).
Proof.
  apply (derived_state_in_sync sample_parse
           (step sample_parse two_matches NextResult)).
  exists [JsonInput "[[[]],[]]"; SearchQuery "0"; NextResult]. reflexivity.
Defined.

(** ** The match under the cursor *)

(** X5: in every reachable state with a non-empty match list, the cursor
    is a valid index and [searchResults[currentSearchIndex]], which the
    navigation effect and the match details read, is a match of the
    list. *)
Theorem current_match_defined
    (JSON_parse : string -> ParseResult) (st : State) :
  reachable JSON_parse st ->
  searchResults st <> [] ->
  (0 <= currentSearchIndex st < Z.of_nat (List.length (searchResults st)))%Z
  /\ exists result,
       nth_error (searchResults st) (Z.to_nat (currentSearchIndex st))
       = Some result
       /\ In result (searchResults st).
Proof.
  intros Hreach Hne.
  destruct (reachable_consistent _ _ Hreach) as [_ Hcursor].
  specialize (Hcursor Hne). split; [exact Hcursor|].
  destruct (nth_error (searchResults st) (Z.to_nat (currentSearchIndex st)))
    as [result|] eqn:Hnth.
  - exists result. split; [reflexivity|]. eapply nth_error_In, Hnth.
  - apply nth_error_None in Hnth. lia.
Qed.

Lemma current_match_defined_witness :
  exists result,
    nth_error (searchResults (step sample_parse two_matches NextResult))
      (Z.to_nat (currentSearchIndex (step sample_parse two_matches NextResult)))
    = Some result
    /\ In result (searchResults (step sample_parse two_matches NextResult)).
Proof.
  apply (current_match_defined sample_parse
           (step sample_parse two_matches NextResult)).
  - exists [JsonInput "[[[]],[]]"; SearchQuery "0"; NextResult]. reflexivity.
  - vm_compute. discriminate.
Defined.

(** ** Letter case of the query *)

Lemma lower_char_space c : is_space (lower_char c) = is_space c.
Proof. destruct c as [[] [] [] [] [] [] [] []]; reflexivity. Qed.

Lemma trimEnd_keeps_head c s :
  is_space c = false -> is_empty (trimEnd (String c s)) = false.
Proof. intros Hc. cbn [trimEnd]. rewrite Hc. now destruct (trimEnd s). Qed.

Lemma blank_toLowerCase q :
  is_empty (trim (toLowerCase q)) = is_empty (trim q).
Proof.
  unfold trim. induction q as [|c q IH]; [reflexivity|].
  cbn [toLowerCase trimStart]. rewrite lower_char_space.
  destruct (is_space c) eqn:Hc; [exact IH|].
  rewrite !trimEnd_keeps_head; [reflexivity|assumption|].
  now rewrite lower_char_space.
Qed.

(** X6: the match list depends on the query only through its lowercase
    form: two queries that differ in letter case only give the same
    ranked matches. *)
Theorem search_ignores_query_case (doc : json) (q q' : string) :
  toLowerCase q = toLowerCase q' ->
  searchMatches doc q = searchMatches doc q'.
Proof.
  intros Hq. rewrite !searchMatches_eq.
  rewrite <- (blank_toLowerCase q), <- (blank_toLowerCase q'), Hq.
  unfold search. now rewrite Hq.
Qed.

Lemma search_ignores_query_case_witness :
  searchMatches (JObject [("Name", JString "Bob")]) "NAME"
  = searchMatches (JObject [("Name", JString "Bob")]) "name".
Proof.
  apply (search_ignores_query_case (JObject [("Name", JString "Bob")])
           "NAME" "name").
  reflexivity.
Defined.

(** ** Joining and splitting paths *)

Lemma append_assoc a b c : (a +:+ b) +:+ c = a +:+ (b +:+ c).
Proof.
  induction a as [|x a IH]; [reflexivity|].
  rewrite !append_cons. now rewrite IH.
Qed.

Lemma join_cons a b rest :
  join (a :: b :: rest) = a +:+ "." +:+ join (b :: rest).
Proof. reflexivity. Qed.

Lemma join_split s : join (split s) = s.
Proof.
  induction s as [|c s IH]; [reflexivity|]. cbn [split].
  destruct (Ascii.eqb_spec c ".") as [->|_].
  - destruct (split s) as [|h t] eqn:E; [now apply split_nonempty in E|].
    rewrite join_cons, IH. reflexivity.
  - destruct (split s) as [|h t] eqn:E; [now apply split_nonempty in E|].
    rewrite <- IH. destruct t; reflexivity.
Qed.

Lemma join_app front back :
  front <> [] -> back <> [] ->
  join (front ++ back) = join front +:+ "." +:+ join back.
Proof.
  intros Hfront Hback.
  induction front as [|a front IH]; [contradiction|].
  destruct front as [|b front].
  - destruct back as [|c back]; [contradiction|]. reflexivity.
  - cbn [app] in *. rewrite !join_cons, IH by discriminate.
    now rewrite !append_assoc.
Qed.

Lemma join_head_nonempty a rest :
  is_empty a = false -> is_empty (join (a :: rest)) = false.
Proof.
  intros Ha. destruct rest; [exact Ha|].
  rewrite join_cons. now apply append_not_empty.
Qed.

(** ** Forcing ancestors open *)

Lemma dotted_not_proto a b : a +:+ "." +:+ b <> "__proto__".
Proof.
  intros H. apply (f_equal split) in H. rewrite split_append_dot in H.
  change (split "__proto__") with ["__proto__"] in H.
  pose proof (split_nonempty a) as Ha. pose proof (split_nonempty b) as Hb.
  destruct (split a) as [|x [|y l]]; [contradiction| |discriminate].
  destruct (split b); [contradiction|discriminate].
Qed.

Lemma assign_only_true key (updates : gmap string bool) :
  (forall k v, updates !! k = Some v -> v = true) ->
  forall k v, assign key true updates !! k = Some v -> v = true.
Proof.
  intros Hall k v. unfold assign.
  destruct (String.eqb key "__proto__"), (updates !! key);
    try apply Hall; rewrite lookup_insert; case_decide;
    (congruence || apply Hall).
Qed.

Lemma assign_proto key b (updates : gmap string bool) :
  updates !! "__proto__" = None ->
  assign key b updates !! "__proto__" = None.
Proof.
  intros Hnone. unfold assign.
  destruct (String.eqb_spec key "__proto__") as [->|Hkey].
  - now rewrite Hnone.
  - now rewrite lookup_insert_ne.
Qed.

Lemma force_prefixes_sets parts currentPath (updates : gmap string bool) n :
  is_empty currentPath = false ->
  (1 <= n <= List.length parts)%nat ->
  force_prefixes parts currentPath updates
    !! (currentPath +:+ "." +:+ join (firstn n parts)) = Some true.
Proof.
  revert currentPath updates n.
  induction parts as [|part rest IH]; intros currentPath updates n Hcur Hn;
    [cbn in Hn; lia|].
  cbn [force_prefixes]. rewrite Hcur.
  destruct n as [|[|m]]; [lia| |].
  - cbn [firstn join]. apply force_prefixes_keeps, assign_eq, dotted_not_proto.
  - cbn [List.length] in Hn.
    destruct rest as [|r rest']; [cbn in Hn; lia|].
    change (firstn (S (S m)) (part :: r :: rest'))
      with (part :: r :: firstn m rest').
    rewrite join_cons.
    change (r :: firstn m rest') with (firstn (S m) (r :: rest')).
    replace (currentPath +:+ "." +:+ part +:+ "." +:+ join (firstn (S m) (r :: rest')))
      with ((currentPath +:+ "." +:+ part) +:+ "." +:+ join (firstn (S m) (r :: rest')))
      by now rewrite !append_assoc.
    apply IH; [now apply append_not_empty|]. cbn [List.length] in *. lia.
Qed.

(** Started on the empty path, the loop sets the path of every prefix of
    the segments, the key [__proto__] apart. *)
Lemma force_prefixes_top parts (updates : gmap string bool) n :
  is_empty (hd "" parts) = false ->
  (1 <= n <= List.length parts)%nat ->
  join (firstn n parts) <> "__proto__" ->
  force_prefixes parts "" updates !! join (firstn n parts) = Some true.
Proof.
  destruct parts as [|a rest]; [cbn; lia|]. cbn [hd]. intros Ha Hn Hkey.
  cbn [force_prefixes is_empty]. change ("" +:+ "" +:+ a) with a.
  destruct n as [|[|m]]; [lia| |].
  - cbn [firstn join] in Hkey |- *. now apply force_prefixes_keeps, assign_eq.
  - cbn [List.length] in Hn.
    destruct rest as [|r rest']; [cbn in Hn; lia|].
    change (firstn (S (S m)) (a :: r :: rest'))
      with (a :: firstn (S m) (r :: rest')).
    change (firstn (S m) (r :: rest')) with (r :: firstn m rest') at 1.
    rewrite join_cons.
    change (r :: firstn m rest') with (firstn (S m) (r :: rest')).
    apply force_prefixes_sets; [assumption|]. cbn [List.length] in *. lia.
Qed.

Lemma force_prefixes_only_true parts currentPath (updates : gmap string bool) :
  (forall k v, updates !! k = Some v -> v = true) ->
  forall k v, force_prefixes parts currentPath updates !! k = Some v -> v = true.
Proof.
  revert currentPath updates.
  induction parts as [|part rest IH]; intros currentPath updates Hall; cbn.
  - exact Hall.
  - now apply IH, assign_only_true.
Qed.

(** On a batch without an entry for the key [__proto__], the loop stores
    none. *)
Lemma force_prefixes_proto parts currentPath (updates : gmap string bool) :
  updates !! "__proto__" = None ->
  force_prefixes parts currentPath updates !! "__proto__" = None.
Proof.
  revert currentPath updates.
  induction parts as [|part rest IH]; intros currentPath updates Hnone; cbn.
  - exact Hnone.
  - now apply IH, assign_proto.
Qed.

Lemma union_keeps_true (updates prev : gmap string bool) k :
  (forall k v, updates !! k = Some v -> v = true) ->
  prev !! k = Some true -> (updates ∪ prev) !! k = Some true.
Proof.
  intros Hall Hk. destruct (updates !! k) as [v|] eqn:E.
  - rewrite (lookup_union_Some_l _ _ _ _ E). f_equal. eapply Hall, E.
  - now rewrite lookup_union_r.
Qed.

Lemma split_head_nonempty p :
  is_empty (hd "" (split p)) = false -> is_empty p = false.
Proof. destruct p; [discriminate|reflexivity]. Qed.

Lemma expandParentPaths_proto p (prev : gmap string bool) :
  expandParentPaths p prev !! "__proto__" = prev !! "__proto__".
Proof.
  unfold expandParentPaths. destruct (is_empty p); [reflexivity|].
  apply lookup_union_r, force_prefixes_proto, lookup_empty.
Qed.

(** X7: when the navigation effect runs for the match under the cursor,
    it leaves every ancestor of the match's path, and the path itself,
    expanded (for a path that does not begin with an empty segment), with
    one exception: the section whose path is [__proto__].  The effect
    assigns to that key of a plain object, which stores nothing, so the
    entry of [__proto__] is the one it was.  The effect collapses
    nothing. *)
Theorem navigation_reveals_match (st : State) (result : SearchResult) (n : nat) :
  (0 <= currentSearchIndex st)%Z ->
  nth_error (searchResults st) (Z.to_nat (currentSearchIndex st)) = Some result ->
  is_empty (hd "" (split (path result))) = false ->
  (1 <= n <= List.length (split (path result)))%nat ->
  (join (firstn n (split (path result))) <> "__proto__" ->
   expandedSections (navigationEffect st)
     !! join (firstn n (split (path result))) = Some true)
  /\ (path result <> "__proto__" ->
      expandedSections (navigationEffect st) !! path result = Some true)
  /\ expandedSections (navigationEffect st) !! "__proto__"
     = expandedSections st !! "__proto__"
  /\ (forall k, expandedSections st !! k = Some true ->
        expandedSections (navigationEffect st) !! k = Some true).
Proof.
  intros Hcur Hnth Hhead Hn.
  assert (Hne : (0 <? List.length (searchResults st))%nat = true).
  { apply Nat.ltb_lt. destruct (searchResults st); [|cbn; lia].
    now destruct (Z.to_nat _). }
  unfold navigationEffect.
  apply Z.leb_le in Hcur. rewrite Hcur, Hne, Hnth. cbn [andb].
  cbn [expandedSections setExpandedSections].
  split; [|split; [|split]].
  - intros Hkey. unfold expandParentPaths.
    rewrite (split_head_nonempty _ Hhead).
    apply lookup_union_Some_l. now apply force_prefixes_top.
  - intros Hkey. unfold expandParentPaths.
    rewrite (split_head_nonempty _ Hhead).
    apply lookup_union_Some_l.
    assert (Hlen : (1 <= List.length (split (path result))
                      <= List.length (split (path result)))%nat) by lia.
    assert (Hfull : join (firstn (List.length (split (path result)))
                            (split (path result))) = path result)
      by now rewrite firstn_all, join_split.
    pose proof (force_prefixes_top (split (path result)) ∅ _ Hhead Hlen)
      as Hset.
    rewrite Hfull in Hset. now apply Hset.
  - apply expandParentPaths_proto.
  - intros k Hk. unfold expandParentPaths.
    rewrite (split_head_nonempty _ Hhead).
    apply union_keeps_true; [|assumption].
    apply force_prefixes_only_true. intros k' v'. now rewrite lookup_empty.
Qed.

Lemma navigation_reveals_match_witness :
  expandedSections (navigationEffect (setCurrentSearchIndex 1 two_matches))
    !! join (firstn 1 (split "0.0")) = Some true
  /\ expandedSections (navigationEffect (setCurrentSearchIndex 1 two_matches))
       !! "0.0" = Some true.
Proof.
  assert (H :=
    navigation_reveals_match (setCurrentSearchIndex 1 two_matches)
      {| type := KeyMatch; path := "0.0"; value := "0"; priority := 5 |} 1).
  destruct H as (Hprefix & Hself & _).
  - cbn. lia.
  - reflexivity.
  - reflexivity.
  - cbn. lia.
  - split; [apply Hprefix|apply Hself]; discriminate.
Defined.

(** The entry of a section [__proto__] is out of the effect's reach: for
    a match at [__proto__.k], with the section [__proto__] collapsed by
    hand, the effect leaves it collapsed. *)
Lemma navigation_keeps_proto_collapsed :
  map path (searchResults proto_collapsed) = ["__proto__.k"]
  /\ currentSearchIndex proto_collapsed = 0%Z
  /\ expandedSections proto_collapsed !! "__proto__" = Some false
  /\ expandedSections (navigationEffect proto_collapsed) !! "__proto__"
     = Some false
  /\ expandedSections (navigationEffect proto_collapsed) !! "__proto__.k"
     = Some true.
Proof. vm_compute. repeat split; reflexivity. Qed.

(** ** Ancestors in the batch of "Open Similar" *)










(** For the element [__proto__.0] of an array held under the key
    [__proto__], the batch holds the element and its sibling and no entry
    for their parent [__proto__]. *)
Lemma open_similar_skips_proto :
  let st := setParsed proto_array "" initial in
  similar_targets (parsedJson st) (expandedSections st) "__proto__.0"
  = ["__proto__.1"]
  /\ expandedSections (toggleSimilarStructures "__proto__.0" true st)
       !! "__proto__.0" = Some true
  /\ expandedSections (toggleSimilarStructures "__proto__.0" true st)
       !! "__proto__.1" = Some true
  /\ expandedSections (toggleSimilarStructures "__proto__.0" true st)
       !! "__proto__" = None.
Proof. vm_compute. repeat split; reflexivity. Qed.

(** ** Patterns *)

Lemma is_index_no_star : is_index "*" = false.
Proof. reflexivity. Qed.

Lemma pattern_part_no_dot part :
  no_dot part = true -> no_dot (if is_index part then "*" else part) = true.
Proof. now destruct (is_index part). Qed.

Lemma pattern_parts_split parts :
  parts <> [] -> Forall (fun k => no_dot k = true) parts ->
  split (join (map (fun part => if is_index part then "*" else part) parts))
  = map (fun part => if is_index part then "*" else part) parts.
Proof.
  intros Hne Hall. apply split_join.
  - destruct parts; [contradiction|discriminate].
  - induction Hall as [|k parts Hk _ IH]; cbn [map]; constructor.
    + now apply pattern_part_no_dot.
    + destruct parts; [constructor|]. now apply IH.
Qed.

(** X9: the pattern of a path has the path's segments with every segment
    of digits replaced by [*]; no segment of a pattern is a string of
    digits, and the pattern of a pattern is the pattern itself. *)
Theorem getNormalizedPattern_segments (p : string) :
  split (getNormalizedPattern p)
  = map (fun part => if is_index part then "*" else part) (split p)
  /\ Forall (fun part => is_index part = false) (split (getNormalizedPattern p))
  /\ getNormalizedPattern (getNormalizedPattern p) = getNormalizedPattern p.
Proof.
  assert (Hseg : split (getNormalizedPattern p)
                 = map (fun part => if is_index part then "*" else part) (split p)).
  { unfold getNormalizedPattern. destruct p as [|c p']; [reflexivity|].
    cbn [is_empty].
    apply pattern_parts_split; [apply split_nonempty|apply split_all_no_dot]. }
  split; [exact Hseg|]. split.
  - rewrite Hseg. apply List.Forall_forall. intros part Hin.
    apply in_map_iff in Hin as (k & <- & _).
    destruct (is_index k) eqn:Hk; [reflexivity|exact Hk].
  - set (pattern := getNormalizedPattern p) in *.
    unfold getNormalizedPattern at 1.
    destruct (is_empty pattern) eqn:Hempty; [now destruct pattern|].
    rewrite Hseg, map_map.
    transitivity (join (split pattern)); [|apply join_split].
    rewrite Hseg. f_equal. apply map_ext. intros part.
    destruct (is_index part) eqn:Hk; [reflexivity|now rewrite Hk].
Qed.

(** ** Replacing an index *)

Lemma join_take_nonempty parts pos :
  Forall (fun k => is_empty k = false) parts ->
  (0 < pos)%nat -> parts <> [] ->
  is_empty (join (firstn pos parts)) = false.
Proof.
  intros Hall Hpos Hne. destruct parts as [|a rest]; [contradiction|].
  destruct pos; [lia|]. cbn [firstn].
  apply join_head_nonempty. now inversion Hall.
Qed.

Lemma join_nonempty_list parts :
  Forall (fun k => is_empty k = false) parts -> parts <> [] ->
  is_empty (join parts) = false.
Proof.
  intros Hall Hne. destruct parts as [|a rest]; [contradiction|].
  apply join_head_nonempty. now inversion Hall.
Qed.

(** For a path without empty segments, the string built by
    [getPathWithReplacedIndex] is the path's segments joined again with
    the one at [pos] replaced. *)
Lemma getPathWithReplacedIndex_join p pos i :
  Forall (fun k => is_empty k = false) (split p) ->
  (pos < List.length (split p))%nat ->
  getPathWithReplacedIndex p pos i = join (<[pos := toString i]> (split p)).
Proof.
  intros Hall Hpos. unfold getPathWithReplacedIndex. cbv zeta.
  unfold slice, slice_from. rewrite Nat.sub_0_r.
  change (skipn 0 (split p)) with (split p).
  set (parts := split p) in *.
  rewrite insert_take_drop by exact Hpos.
  replace (pos + 1)%nat with (S pos) by lia.
  assert (Hdrop : Forall (fun k => is_empty k = false) (skipn (S pos) parts))
    by now apply Forall_drop.
  destruct pos as [|pos'].
  - change (firstn 0 parts) with (@nil string). cbn [app].
    change (join []) with "". cbn [is_empty negb].
    destruct (skipn 1 parts) as [|b back] eqn:Hback; [reflexivity|].
    rewrite (join_nonempty_list (b :: back)) by (assumption || discriminate).
    cbn [negb]. now rewrite join_cons.
  - assert (Hfront : firstn (S pos') parts <> []).
    { destruct parts; [cbn in Hpos; lia|discriminate]. }
    rewrite join_take_nonempty;
      [|assumption|lia|destruct parts; [cbn in Hpos; lia|discriminate]].
    cbn [negb].
    destruct (skipn (S (S pos')) parts) as [|b back] eqn:Hback.
    + cbn [join is_empty negb]. now rewrite join_app by (assumption || discriminate).
    + rewrite (join_nonempty_list (b :: back)) by (assumption || discriminate).
      cbn [negb].
      rewrite join_app by (assumption || discriminate).
      now rewrite join_cons.
Qed.

Lemma no_empty_segments_insert parts pos i :
  Forall (fun k => is_empty k = false) parts ->
  Forall (fun k => is_empty k = false) (<[pos := toString i]> parts).
Proof.
  intros Hall. apply Forall_insert; [assumption|apply toString_nonempty].
Qed.

Lemma no_dot_insert parts pos i :
  Forall (fun k => no_dot k = true) parts ->
  Forall (fun k => no_dot k = true) (<[pos := toString i]> parts).
Proof.
  intros Hall. apply Forall_insert; [assumption|].
  apply digits_no_dot, toString_digits.
Qed.

(** X10: for a path without empty segments and a position inside it,
    [getPathWithReplacedIndex] changes the segment at that position to the
    decimal string of the new index and keeps every other segment; putting
    back the index that is there returns the path itself. *)
Theorem getPathWithReplacedIndex_segments (p : string) (pos i : nat) :
  Forall (fun k => is_empty k = false) (split p) ->
  (pos < List.length (split p))%nat ->
  split (getPathWithReplacedIndex p pos i) = <[pos := toString i]> (split p)
  /\ (split p !! pos = Some (toString i) ->
      getPathWithReplacedIndex p pos i = p).
Proof.
  intros Hall Hpos. rewrite getPathWithReplacedIndex_join by assumption.
  split.
  - apply split_join.
    + intros E. apply (f_equal (@List.length string)) in E.
      rewrite length_insert in E. cbn in E. lia.
    + apply no_dot_insert, split_all_no_dot.
  - intros Hsame. rewrite list_insert_id by exact Hsame. apply join_split.
Qed.

Lemma getPathWithReplacedIndex_segments_witness :
  split (getPathWithReplacedIndex "a.0.b" 1 12) = <[1%nat := toString 12]> (split "a.0.b").
Proof.
  refine (proj1 (getPathWithReplacedIndex_segments "a.0.b" 1 12 _ _)).
  - repeat constructor.
  - cbn. lia.
Defined.

(** ** Which pivot the nested lookup varies *)

Lemma uniq_from_subset seen l :
  (forall x, In x l -> In x seen) -> uniq_from seen l = [].
Proof.
  induction l as [|x l IH]; intros Hsub; cbn; [reflexivity|].
  rewrite bool_decide_eq_true_2
    by (apply list_elem_of_In, Hsub; now left).
  apply IH. intros y Hy. apply Hsub. now right.
Qed.

Lemma uniq_from_app_seen seen l1 l2 :
  (forall x, In x l2 -> In x l1 \/ In x seen) ->
  uniq_from seen (l1 ++ l2) = uniq_from seen l1.
Proof.
  revert seen. induction l1 as [|x l1 IH]; intros seen Hsub; cbn [app].
  - cbn. apply uniq_from_subset. intros y Hy.
    destruct (Hsub y Hy) as [[]|Hin]. exact Hin.
  - cbn [uniq_from]. case_bool_decide as Hx.
    + apply IH. intros y Hy. destruct (Hsub y Hy) as [[<-|Hin]|Hin]; auto.
      right. now apply list_elem_of_In.
    + f_equal. apply IH. intros y Hy.
      destruct (Hsub y Hy) as [[<-|Hin]|Hin]; cbn; auto.
Qed.

Lemma uniq_from_NoDup seen l :
  NoDup l -> (forall x, In x l -> ~ In x seen) -> uniq_from seen l = l.
Proof.
  intros Hnd. revert seen.
  induction Hnd as [|x l Hx Hnd IH]; intros seen Hdisj; cbn; [reflexivity|].
  rewrite bool_decide_eq_false_2.
  - f_equal. apply IH. intros y Hy [<-|Hin].
    + apply Hx. now apply list_elem_of_In.
    + apply (Hdisj y); [now right|assumption].
  - intros Hin%list_elem_of_In. apply (Hdisj x); [now left|assumption].
Qed.

Lemma uniq_repeated (l : list string) (times : list nat) :
  NoDup l -> times <> [] -> uniq (flat_map (fun _ => l) times) = l.
Proof.
  intros Hnd Htimes. destruct times as [|t times]; [contradiction|].
  cbn [flat_map]. unfold uniq. rewrite uniq_from_app_seen.
  - apply uniq_from_NoDup; [assumption|]. intros x _ [].
  - intros x Hx. left. apply in_flat_map in Hx as (_ & _ & Hx). exact Hx.
Qed.

Lemma NoDup_map_injective {A B} (f : A -> B) (l : list A) :
  (forall x y, f x = f y -> x = y) -> NoDup l -> NoDup (map f l).
Proof.
  intros Hinj Hnd. induction Hnd as [|x l Hx Hnd IH]; cbn; constructor.
  - intros Hin%list_elem_of_In%in_map_iff. destruct Hin as (y & Heq & Hy).
    apply Hinj in Heq. subst y. now apply Hx, list_elem_of_In.
  - exact IH.
Qed.

Lemma index_positions_from_app start front back :
  index_positions_from start (front ++ back)
  = index_positions_from start front
    ++ index_positions_from (start + List.length front) back.
Proof.
  revert start. induction front as [|part front IH]; intros start; cbn.
  - now rewrite Nat.add_0_r.
  - rewrite IH. replace (S start + List.length front)%nat
      with (start + S (List.length front))%nat by lia.
    now destruct (is_index part).
Qed.

Lemma index_positions_from_lower start parts pos :
  In pos (index_positions_from start parts) -> (start <= pos)%nat.
Proof. intros (j & -> & _)%index_positions_from_In. lia. Qed.

Lemma index_positions_from_head start parts first others pos :
  index_positions_from start parts = first :: others ->
  In pos (first :: others) -> (first <= pos)%nat.
Proof.
  revert start. induction parts as [|part rest IH]; intros start; cbn;
    [discriminate|].
  destruct (is_index part).
  - intros [= <- <-] [<-|Hin]; [lia|].
    apply index_positions_from_lower in Hin. lia.
  - apply IH.
Qed.

(** The first index position of a path is the first index position of
    each of its prefixes that reach it. *)
Lemma first_index_position_take parts ip k :
  first_index_position parts = Some ip -> (ip < k)%nat ->
  first_index_position (firstn k parts) = Some ip.
Proof.
  unfold first_index_position, index_positions. intros Hfirst Hk.
  rewrite <- (firstn_skipn k parts), index_positions_from_app in Hfirst.
  destruct (index_positions_from 0 (firstn k parts)) as [|x l] eqn:E.
  - cbn [app] in Hfirst.
    destruct (index_positions_from _ (skipn k parts)) as [|y l] eqn:E';
      [discriminate|].
    injection Hfirst as ->.
    assert (Hin : In ip (index_positions_from 0 parts)).
    { rewrite <- (firstn_skipn k parts), index_positions_from_app, E, E'.
      now left. }
    apply index_positions_In in Hin as [Hlen _].
    assert (Hlow : In ip (ip :: l)) by now left.
    rewrite <- E' in Hlow. apply index_positions_from_lower in Hlow.
    rewrite length_take in Hlow. lia.
  - exact Hfirst.
Qed.

Lemma findSiblingsInArray_indices doc q ip :
  first_index_position (split q) = Some ip ->
  findSiblingsInArray doc q
  = map (getPathWithReplacedIndex q ip)
        (sibling_indices doc (getPathUpToIndex q ip) (nth ip (split q) "")).
Proof.
  intros Hip. unfold findSiblingsInArray, sibling_indices. rewrite Hip.
  destruct (returned _) as [[| | | |a|]|]; reflexivity.
Qed.

Lemma findSiblingsInArray_no_index doc q :
  first_index_position (split q) = None -> findSiblingsInArray doc q = [].
Proof. intros Hip. unfold findSiblingsInArray. now rewrite Hip. Qed.

(** The contribution of the index position [pos] to [findNestedSiblings]
    is the sibling list of the first index position. *)
Lemma nested_contribution doc p pos ip :
  Forall (fun k => is_empty k = false) (split p) ->
  first_index_position (split p) = Some ip ->
  (ip <= pos < List.length (split p))%nat ->
  (let pathToHere := join (slice 0 (pos + 1) (split p)) in
   let siblings := findSiblingsInArray doc pathToHere in
   if (pos <? List.length (split p) - 1)%nat then
     map (fun sibling =>
            sibling +:+ "." +:+ join (slice_from (pos + 1) (split p))) siblings
   else siblings)
  = findSiblingsInArray doc p.
Proof.
  intros Hall Hip Hpos. cbv zeta. unfold slice, slice_from.
  rewrite Nat.sub_0_r. change (skipn 0 (split p)) with (split p).
  assert (Hnd := split_all_no_dot p).
  set (parts := split p) in *.
  set (here := firstn (pos + 1) parts).
  set (rest := skipn (pos + 1) parts).
  assert (Hparts : parts = here ++ rest) by (symmetry; apply firstn_skipn).
  assert (Hlen : List.length here = (pos + 1)%nat)
    by (subst here; rewrite length_take; lia).
  assert (Hhere : here <> []) by (intros E; rewrite E in Hlen; cbn in Hlen; lia).
  assert (Hsplit : split (join here) = here)
    by (apply split_join; [assumption|now apply Forall_take]).
  assert (Hhere_all : Forall (fun k => is_empty k = false) here)
    by now apply Forall_take.
  assert (Hip' : first_index_position (split (join here)) = Some ip).
  { rewrite Hsplit. apply first_index_position_take; [assumption|lia]. }
  rewrite (findSiblingsInArray_indices doc (join here) ip Hip').
  rewrite (findSiblingsInArray_indices doc p ip Hip). fold parts.
  assert (Hup : getPathUpToIndex (join here) ip = getPathUpToIndex p ip).
  { unfold getPathUpToIndex, slice. rewrite Hsplit, Nat.sub_0_r. fold parts.
    change (skipn 0 here) with here. change (skipn 0 parts) with parts.
    subst here. rewrite take_take. f_equal. f_equal. lia. }
  assert (Hcur : nth ip (split (join here)) "" = nth ip parts "").
  { rewrite Hsplit. subst here. rewrite nth_firstn.
    destruct (Nat.ltb_spec ip (pos + 1)); [reflexivity|lia]. }
  rewrite Hup, Hcur.
  set (indices := sibling_indices doc _ _).
  assert (Hreplace : forall j,
    getPathWithReplacedIndex (join here) ip j = join (<[ip := toString j]> here)).
  { intros j. rewrite getPathWithReplacedIndex_join; rewrite Hsplit;
      [reflexivity|assumption|lia]. }
  destruct (Nat.ltb_spec pos (List.length parts - 1)) as [Hinner|Hlast].
  - rewrite map_map. apply map_ext. intros j.
    rewrite Hreplace, (getPathWithReplacedIndex_join p)
      by (assumption || (fold parts; lia)).
    fold parts.
    assert (Hrest : rest <> []).
    { intros E. apply (f_equal (@List.length string)) in Hparts.
      rewrite length_app, E, Hlen in Hparts. cbn in Hparts. lia. }
    rewrite <- join_app; [|intros E|assumption].
    + rewrite <- insert_app_l by lia. now rewrite <- Hparts.
    + apply (f_equal (@List.length string)) in E.
      rewrite length_insert in E. cbn in E. lia.
  - assert (Hwhole : here = parts).
    { subst here. apply firstn_all2. lia. }
    rewrite Hwhole. subst parts. now rewrite join_split.
Qed.

Lemma replaced_index_parts p pos i :
  Forall (fun k => is_empty k = false) (split p) ->
  (pos < List.length (split p))%nat ->
  split (getPathWithReplacedIndex p pos i) = <[pos := toString i]> (split p).
Proof.
  intros Hall Hpos. rewrite getPathWithReplacedIndex_join by assumption.
  apply split_join.
  - intros E. apply (f_equal (@List.length string)) in E.
    rewrite length_insert in E. rewrite E in Hpos. cbn in Hpos. lia.
  - apply no_dot_insert, split_all_no_dot.
Qed.

Lemma getPathWithReplacedIndex_injective p ip j j' :
  Forall (fun k => is_empty k = false) (split p) ->
  (ip < List.length (split p))%nat ->
  getPathWithReplacedIndex p ip j = getPathWithReplacedIndex p ip j' -> j = j'.
Proof.
  intros Hall Hip Heq.
  apply (f_equal split) in Heq.
  rewrite !replaced_index_parts in Heq by assumption.
  apply (f_equal (fun l => l !! ip)) in Heq.
  rewrite !list_lookup_insert_eq in Heq by assumption.
  injection Heq as Heq. apply (f_equal parseInt) in Heq.
  now rewrite !parseInt_toString in Heq.
Qed.

Lemma sibling_indices_NoDup doc arrayParentPath current :
  NoDup (sibling_indices doc arrayParentPath current).
Proof.
  unfold sibling_indices.
  destruct (returned _) as [[| | | |a|]|]; try constructor.
  apply NoDup_filter, NoDup_seq.
Qed.

Lemma flat_map_agree {A B} (f g : A -> list B) (l : list A) :
  (forall x, In x l -> f x = g x) -> flat_map f l = flat_map g l.
Proof.
  induction l as [|x l IH]; intros Heq; cbn; [reflexivity|].
  rewrite Heq by now left. f_equal. apply IH. intros y Hy. apply Heq. now right.
Qed.

(** X11: for a path without empty segments, [findNestedSiblings] returns
    the sibling list of [findSiblingsInArray]: whatever the number of
    index positions in the path, the candidates are those that vary the
    first one. *)
Theorem findNestedSiblings_first_pivot (doc : json) (p : string) :
  Forall (fun k => is_empty k = false) (split p) ->
  findNestedSiblings doc p = findSiblingsInArray doc p.
Proof.
  intros Hall. unfold findNestedSiblings.
  destruct (index_positions (split p)) as [|first others] eqn:Hpositions.
  - symmetry. apply findSiblingsInArray_no_index.
    unfold first_index_position. now rewrite Hpositions.
  - rewrite <- Hpositions.
    assert (Hip : first_index_position (split p) = Some first)
      by (unfold first_index_position; now rewrite Hpositions).
    rewrite (flat_map_agree _ (fun _ => findSiblingsInArray doc p)).
    + apply uniq_repeated; [|rewrite Hpositions; discriminate].
      rewrite (findSiblingsInArray_indices doc p first Hip).
      apply NoDup_map_injective; [|apply sibling_indices_NoDup].
      intros j j'. apply getPathWithReplacedIndex_injective; [assumption|].
      now apply first_index_position_spec in Hip.
    + intros pos Hpos. apply (nested_contribution doc p pos first Hall Hip).
      split.
      * rewrite Hpositions in Hpos.
        eapply index_positions_from_head; [exact Hpositions|exact Hpos].
      * now apply index_positions_In in Hpos.
Qed.

Lemma findNestedSiblings_first_pivot_witness :
  findNestedSiblings nested_arrays "a.0.b.0"
  = findSiblingsInArray nested_arrays "a.0.b.0".
Proof.
  apply (findNestedSiblings_first_pivot nested_arrays "a.0.b.0").
  repeat constructor.
Defined.

(** ** Resolving the path of a location *)

Lemma assoc_distinct fields k v :
  distinct_strings (map fst fields) = true ->
  In (k, v) fields -> assoc k fields = Some v.
Proof.
  induction fields as [|[k0 v0] rest IH]; cbn; [tauto|].
  intros [Hfresh Hrest]%andb_prop [Hin|Hin].
  - injection Hin as -> ->. now rewrite String.eqb_refl.
  - destruct (String.eqb_spec k0 k) as [->|_]; [|now apply IH].
    apply negb_true_iff in Hfresh.
    assert (Hex : existsb (String.eqb k) (map fst rest) = true).
    { apply existsb_exists. exists k. split; [|apply String.eqb_refl].
      apply in_map_iff. now exists (k, v). }
    congruence.
Qed.

Lemma indexed_from_lookup start elems k v :
  In (k, v) (indexed_from start elems) ->
  exists i, k = toString (start + i) /\ nth_error elems i = Some v.
Proof.
  revert start. induction elems as [|w elems IH]; intros start; cbn; [tauto|].
  intros [[= <- <-]|Hin].
  - exists 0%nat. now rewrite Nat.add_0_r.
  - apply IH in Hin as (i & -> & Hi). exists (S i).
    split; [f_equal; lia|exact Hi].
Qed.

Lemma canonical_index_toString i : canonical_index (toString i) = Some i.
Proof.
  unfold canonical_index, is_index.
  now rewrite toString_nonempty, toString_digits, parseInt_toString,
    String.eqb_refl.
Qed.

Lemma own_property_entry obj k v :
  distinct_keys obj = true -> In (k, v) (entries obj) ->
  own_property obj k = Some v.
Proof.
  destruct obj as [| | | |elems|fields]; cbn [entries]; try (intros _ []).
  - intros _ (i & -> & Hi)%indexed_from_lookup. cbn [own_property].
    now rewrite canonical_index_toString.
  - cbn [distinct_keys own_property]. intros [Hkeys _]%andb_prop Hin.
    now apply assoc_distinct.
Qed.

Lemma distinct_keys_entries obj k v :
  distinct_keys obj = true -> In (k, v) (entries obj) ->
  distinct_keys v = true.
Proof.
  destruct obj as [| | | |elems|fields]; cbn [entries distinct_keys];
    try (intros _ []).
  - intros Hall Hin%indexed_from_In.
    rewrite forallb_forall in Hall. now apply Hall.
  - intros [_ Hall]%andb_prop Hin. rewrite forallb_forall in Hall.
    now apply (Hall (k, v)).
Qed.

Lemma entries_not_null obj k v : In (k, v) (entries obj) -> obj <> JNull.
Proof. destruct obj; cbn; congruence || tauto. Qed.

Lemma walk_parts_location obj segs c :
  distinct_keys obj = true -> at_path obj segs c ->
  walk_parts segs (Some obj) = Return (Some c).
Proof.
  intros Hkeys Hat. induction Hat as [obj|obj k v segs c Hin Hat IH].
  - reflexivity.
  - cbn [walk_parts].
    assert (Hobj := entries_not_null _ _ _ Hin).
    assert (Hnull : nullish (Some obj) = false) by now destruct obj.
    rewrite Hnull.
    pose proof (own_property_entry obj k v Hkeys Hin) as Hown.
    assert (Hget : get_property (Some obj) k = Return (Some v)).
    { destruct (get_property_cases (Some obj) k Hnull) as (w & [= <-] & Hcase).
      now rewrite Hown in Hcase. }
    rewrite Hget.
    apply IH. eapply distinct_keys_entries; eassumption.
Qed.

Lemma at_path_plain doc segs c :
  plain_keys doc = true -> at_path doc segs c ->
  Forall (fun k => plain_key k = true) segs.
Proof.
  intros Hplain Hat. induction Hat as [obj|obj k v segs c Hin Hat IH].
  - constructor.
  - destruct (plain_keys_entries _ _ _ Hplain Hin) as [Hk Hv].
    constructor; auto.
Qed.

Lemma path_of_nonempty segs :
  segs <> [] -> Forall (fun k => plain_key k = true) segs ->
  is_empty (path_of segs) = false.
Proof.
  intros Hne Hall. pose proof (split_path_of segs Hne Hall) as Hsplit.
  destruct (path_of segs) eqn:E; [|reflexivity].
  cbn in Hsplit. subst segs. inversion Hall as [|? ? Hk _]. discriminate Hk.
Qed.

(** In a document with plain, distinct keys, the path string of a chain
    of keys resolves to the value the chain leads to. *)
Lemma resolve_chain doc segs c :
  plain_keys doc = true -> distinct_keys doc = true ->
  at_path doc segs c ->
  getValueAtPath doc (path_of segs) = Return (Some c).
Proof.
  intros Hplain Hkeys Hat. unfold getValueAtPath.
  destruct segs as [|k segs].
  - inversion Hat; subst. reflexivity.
  - pose proof (at_path_plain _ _ _ Hplain Hat) as Hall.
    rewrite path_of_nonempty, split_path_of by (assumption || discriminate).
    now apply walk_parts_location.
Qed.

Lemma at_path_snoc obj segs c k v :
  at_path obj segs c -> In (k, v) (entries c) -> at_path obj (segs ++ [k]) v.
Proof.
  intros Hat Hin. induction Hat as [obj|obj k0 v0 segs c H0 Hat IH]; cbn.
  - eapply at_entry; [eassumption|constructor].
  - eapply at_entry; [eassumption|]. now apply IH.
Qed.

Lemma locations_at_path obj chain parent c p :
  In (c, p) (locations obj chain parent) ->
  exists segs v, c = chain ++ segs /\ p = path_from parent segs
                 /\ at_path obj segs v.
Proof.
  revert chain parent.
  induction obj as [obj IH] using json_entries_ind. intros chain parent.
  rewrite locations_entries, in_flat_map.
  intros [[k v] [Hin [Hhere|Hbelow]]]; cbn [fst snd] in *.
  - injection Hhere as <- <-. exists [k], v. repeat split.
    eapply at_entry; [eassumption|constructor].
  - destruct (is_container v); [|destruct Hbelow].
    apply (IH k v Hin) in Hbelow as (segs & w & -> & -> & Hat).
    exists (k :: segs), w. rewrite <- app_assoc. repeat split.
    eapply at_entry; eassumption.
Qed.

(** X12: in a document whose keys are non-empty, free of dots and
    distinct within each object, every path string the traversal assigns
    resolves: [getValueAtPath] on it returns the value at the location the
    path was assigned to. *)
Theorem traversal_path_resolves (doc : json) (chain : list string) (p : string) :
  plain_keys doc = true -> distinct_keys doc = true ->
  In (chain, p) (locations doc [] "") ->
  exists v, at_path doc chain v /\ getValueAtPath doc p = Return (Some v).
Proof.
  intros Hplain Hkeys Hin.
  apply locations_at_path in Hin as (segs & v & -> & -> & Hat).
  exists v. split; [exact Hat|]. now apply resolve_chain.
Qed.

Lemma traversal_path_resolves_witness :
  exists v, at_path nested_arrays ["a"; "1"; "b"] v
            /\ getValueAtPath nested_arrays "a.1.b" = Return (Some v).
Proof.
  apply (traversal_path_resolves nested_arrays ["a"; "1"; "b"] "a.1.b").
  - reflexivity.
  - reflexivity.
  - vm_compute. tauto.
Defined.

(** ** Matches are entries *)

Lemma entry_matches_entry query currentPath k v m :
  In m (entry_matches query currentPath k v) ->
  path m = currentPath
  /\ (type m = KeyMatch -> value m = k)
  /\ (type m = ValueMatch -> v = JString (value m)).
Proof.
  unfold entry_matches. intros [Hm|Hm]%in_app_iff.
  - destruct (includes _ _); [|destruct Hm]. destruct Hm as [<-|[]].
    cbn. repeat split; congruence.
  - destruct v as [| | |s| |]; try destruct Hm.
    destruct (includes _ _); [|destruct Hm]. destruct Hm as [<-|[]].
    cbn. repeat split; congruence.
Qed.

Lemma searchInObject_sound query obj parent m :
  In m (searchInObject query obj parent) ->
  exists segs c k v,
    at_path obj segs c /\ In (k, v) (entries c)
    /\ In m (entry_matches query (path_from parent (segs ++ [k])) k v).
Proof.
  revert parent. induction obj as [obj IH] using json_entries_ind.
  intros parent Hm.
  apply searchInObject_In in Hm as (k & v & Hin & [Hm|[_ Hm]]).
  - exists [], obj, k, v. repeat split; [constructor|assumption|exact Hm].
  - apply (IH k v Hin) in Hm as (segs & c & k' & v' & Hat & Hin' & Hm).
    exists (k :: segs), c, k', v'. repeat split; [|assumption|exact Hm].
    eapply at_entry; eassumption.
Qed.

(** X13: every match of the list is an entry of the document: its path is
    the path string of the entry, a key match carries the entry's key and
    a value match the entry's string value; and in a document with plain,
    distinct keys, resolving the match's path returns the entry's
    value. *)
Theorem match_is_entry (doc : json) (q : string) (m : SearchResult) :
  In m (searchMatches doc q) ->
  exists segs c k v,
    at_path doc segs c /\ In (k, v) (entries c)
    /\ path m = path_of (segs ++ [k])
    /\ (type m = KeyMatch -> value m = k)
    /\ (type m = ValueMatch -> v = JString (value m))
    /\ (plain_keys doc = true -> distinct_keys doc = true ->
        getValueAtPath doc (path m) = Return (Some v)).
Proof.
  intros Hm%searchMatches_In.
  apply searchInObject_sound in Hm as (segs & c & k & v & Hat & Hin & Hm).
  apply entry_matches_entry in Hm as (Hpath & Hkey & Hval).
  exists segs, c, k, v. repeat split; try assumption.
  intros Hplain Hkeys. rewrite Hpath. apply resolve_chain; try assumption.
  eapply at_path_snoc; eassumption.
Qed.

Lemma match_is_entry_witness :
  exists segs c k v,
    at_path nested_arrays segs c /\ In (k, v) (entries c)
    /\ "a.1.b" = path_of (segs ++ [k]).
Proof.
  destruct (match_is_entry nested_arrays "B"
              {| type := KeyMatch; path := "a.1.b"; value := "b";
                 priority := 5 |})
    as (segs & c & k & v & Hat & Hin & Hpath & _).
  - vm_compute. tauto.
  - exists segs, c, k, v. auto.
Defined.

(** ** Siblings of an array element *)

Lemma path_of_join segs :
  Forall (fun k => plain_key k = true) segs -> path_of segs = join segs.
Proof.
  intros Hall. destruct segs as [|k segs]; [reflexivity|].
  rewrite <- (join_split (path_of (k :: segs))).
  now rewrite split_path_of by (assumption || discriminate).
Qed.

Lemma index_positions_none start segs :
  Forall (fun k => is_index k = false) segs ->
  index_positions_from start segs = [].
Proof.
  intros Hall. revert start.
  induction Hall as [|k segs Hk _ IH]; intros start; cbn; [reflexivity|].
  rewrite Hk. apply IH.
Qed.

Lemma is_index_toString i : is_index (toString i) = true.
Proof. unfold is_index. now rewrite toString_nonempty, toString_digits. Qed.

Lemma plain_nonempty segs :
  Forall (fun k => plain_key k = true) segs ->
  Forall (fun k => is_empty k = false) segs.
Proof.
  intros Hall. eapply Forall_impl; [exact Hall|].
  intros k Hk. now apply plain_key_parts in Hk.
Qed.

(** The siblings of the element [i] of an array reached through keys none
    of which is a string of digits. *)
Lemma element_siblings doc segs elems i :
  plain_keys doc = true -> distinct_keys doc = true ->
  at_path doc segs (JArray elems) ->
  Forall (fun k => is_index k = false) segs ->
  let p := path_of (segs ++ [toString i]) in
  split p = segs ++ [toString i]
  /\ index_positions (split p) = [List.length segs]
  /\ findSiblingsInArray doc p
     = map (fun j => path_of (segs ++ [toString j]))
           (filter (fun j => j ≠ i) (seq 0 (List.length elems))).
Proof.
  intros Hplain Hkeys Hat Hnames p.
  pose proof (at_path_plain _ _ _ Hplain Hat) as Hsegs.
  assert (Hall : forall j, Forall (fun k => plain_key k = true)
                                  (segs ++ [toString j])).
  { intros j. apply Forall_app. split; [assumption|].
    constructor; [apply toString_plain|constructor]. }
  assert (Hsplit : split p = segs ++ [toString i]).
  { apply split_path_of; [|apply Hall]. now destruct segs. }
  assert (Hpositions : index_positions (split p) = [List.length segs]).
  { rewrite Hsplit. unfold index_positions.
    rewrite index_positions_from_app, index_positions_none by assumption.
    cbn. now rewrite is_index_toString. }
  split; [exact Hsplit|]. split; [exact Hpositions|].
  assert (Hip : first_index_position (split p) = Some (List.length segs))
    by (unfold first_index_position; now rewrite Hpositions).
  rewrite (findSiblingsInArray_indices doc p _ Hip).
  assert (Hup : getPathUpToIndex p (List.length segs) = path_of segs).
  { unfold getPathUpToIndex, slice. rewrite Hsplit, Nat.sub_0_r.
    change (skipn 0 (segs ++ [toString i])) with (segs ++ [toString i]).
    rewrite take_app_length. symmetry. now apply path_of_join. }
  assert (Hcur : nth (List.length segs) (split p) "" = toString i).
  { rewrite Hsplit, app_nth2 by lia. now rewrite Nat.sub_diag. }
  unfold sibling_indices.
  rewrite Hup, Hcur, (resolve_chain doc segs (JArray elems)) by assumption.
  cbn [returned]. rewrite parseInt_toString.
  apply map_ext. intros j.
  rewrite getPathWithReplacedIndex_join.
  - rewrite Hsplit.
    replace (List.length segs) with (List.length segs + 0)%nat at 1 by lia.
    rewrite insert_app_r. cbn. symmetry. apply path_of_join, Hall.
  - rewrite Hsplit. apply plain_nonempty, Hall.
  - rewrite Hsplit, length_app. cbn. lia.
Qed.

Lemma element_nested_siblings doc segs elems i :
  plain_keys doc = true -> distinct_keys doc = true ->
  at_path doc segs (JArray elems) ->
  Forall (fun k => is_index k = false) segs ->
  findNestedSiblings doc (path_of (segs ++ [toString i]))
  = map (fun j => path_of (segs ++ [toString j]))
        (filter (fun j => j ≠ i) (seq 0 (List.length elems))).
Proof.
  intros Hplain Hkeys Hat Hnames.
  destruct (element_siblings doc segs elems i Hplain Hkeys Hat Hnames)
    as (Hsplit & Hpositions & Hsiblings).
  set (p := path_of (segs ++ [toString i])) in *.
  assert (Hregular : Forall (fun k => is_empty k = false) (split p)).
  { rewrite Hsplit. apply plain_nonempty, Forall_app. split.
    - eapply at_path_plain; eassumption.
    - constructor; [apply toString_plain|constructor]. }
  assert (Hip : first_index_position (split p) = Some (List.length segs))
    by (unfold first_index_position; now rewrite Hpositions).
  assert (Hlast : (List.length segs <= List.length segs
                     < List.length (split p))%nat)
    by (rewrite Hsplit, length_app; cbn; lia).
  pose proof (nested_contribution doc p _ _ Hregular Hip Hlast) as Hhere.
  cbv zeta in Hhere.
  unfold findNestedSiblings. rewrite Hpositions. cbv zeta. cbn [flat_map].
  rewrite app_nil_r, Hhere. unfold uniq.
  rewrite uniq_from_NoDup; [exact Hsiblings| |intros x _ []].
  rewrite (findSiblingsInArray_indices doc p _ Hip).
  apply NoDup_map_injective; [|apply sibling_indices_NoDup].
  intros j j'. apply getPathWithReplacedIndex_injective; [assumption|].
  rewrite Hsplit, length_app. cbn. lia.
Qed.

(** X14: for the element [i] of an array that the traversal reaches
    through keys none of which is a string of digits (in a document with
    plain, distinct keys), [findSiblingsInArray] and [findNestedSiblings]
    both return the paths of the other elements of the array, in index
    order. *)
Theorem array_element_siblings
    (doc : json) (segs : list string) (elems : list json) (i : nat) :
  plain_keys doc = true -> distinct_keys doc = true ->
  at_path doc segs (JArray elems) ->
  Forall (fun k => is_index k = false) segs ->
  let others :=
    map (fun j => path_of (segs ++ [toString j]))
        (filter (fun j => j ≠ i) (seq 0 (List.length elems))) in
  findSiblingsInArray doc (path_of (segs ++ [toString i])) = others
  /\ findNestedSiblings doc (path_of (segs ++ [toString i])) = others.
Proof.
  intros Hplain Hkeys Hat Hnames others. split.
  - now apply element_siblings.
  - now apply element_nested_siblings.
Qed.

Lemma array_element_siblings_witness :
  findNestedSiblings nested_arrays (path_of (["a"] ++ [toString 0]))
  = map (fun j => path_of (["a"] ++ [toString j]))
        (filter (fun j => j ≠ 0%nat) (seq 0 2)).
Proof.
  refine (proj2 (array_element_siblings nested_arrays ["a"]
                   [JObject [("b", JArray [JObject [("x", JNumber 1)];
                                           JObject [("x", JNumber 2)]])];
                    JObject [("b", JArray [JObject [("x", JNumber 3)];
                                           JObject [("x", JNumber 4)]])]]
                   0 _ _ _ _)).
  - reflexivity.
  - reflexivity.
  - eapply at_entry; [left; reflexivity|constructor].
  - repeat constructor.
Defined.

(** ** "Open Similar" on an array element *)

Lemma other_elements_nonempty (n i : nat) :
  (2 <= n)%nat -> filter (fun j => j ≠ i) (seq 0 n) <> [].
Proof.
  intros Hn E.
  assert (Hin : (if (i =? 0)%nat then 1%nat else 0%nat)
                ∈ filter (fun j => j ≠ i) (seq 0 n)).
  { apply list_elem_of_filter. split.
    - destruct (Nat.eqb_spec i 0); lia.
    - apply elem_of_seq. destruct (i =? 0)%nat; lia. }
  rewrite E in Hin. inversion Hin.
Qed.

(** X15: "Open Similar" on the element [i] of an array of at least two
    elements, reached through keys none of which is a string of digits (in
    a document with plain, distinct keys), leaves every element of the
    array expanded, the element [i] included. *)
Theorem open_similar_on_element
    (st : State) (segs : list string) (elems : list json) (i j : nat) :
  plain_keys (parsedJson st) = true ->
  distinct_keys (parsedJson st) = true ->
  at_path (parsedJson st) segs (JArray elems) ->
  Forall (fun k => is_index k = false) segs ->
  (2 <= List.length elems)%nat ->
  (j < List.length elems)%nat ->
  expandedSections
    (toggleSimilarStructures (path_of (segs ++ [toString i])) true st)
    !! path_of (segs ++ [toString j]) = Some true.
Proof.
  intros Hplain Hkeys Hat Hnames Hlen Hj.
  pose proof (element_nested_siblings _ segs elems i Hplain Hkeys Hat Hnames)
    as Hnested.
  rewrite toggleSimilarStructures_targets. unfold similar_targets.
  rewrite Hnested.
  set (others := map _ _) in *.
  assert (Hne : others <> []).
  { subst others. intros E. apply map_eq_nil in E.
    now apply other_elements_nonempty in E. }
  destruct others as [|t ts] eqn:E; [congruence|]. rewrite <- E in *.
  cbn [expandedSections setExpandedSections].
  apply lookup_union_Some_l.
  assert (Hproto : forall k, path_of (segs ++ [toString k]) <> "__proto__").
  { intros k. apply (toString_segment_not_proto _ k).
    destruct (element_siblings _ segs elems k Hplain Hkeys Hat Hnames)
      as [Hsplit _].
    rewrite Hsplit. apply in_elt. }
  destruct (Nat.eq_dec j i) as [->|Hji].
  - apply similar_updates_self, Hproto.
  - apply similar_updates_targets; [|apply Hproto]. subst others.
    apply in_map_iff. exists j. split; [reflexivity|].
    apply list_elem_of_In, list_elem_of_filter. split; [exact Hji|].
    apply elem_of_seq. lia.
Qed.

Lemma open_similar_on_element_witness :
  expandedSections
    (toggleSimilarStructures (path_of (["a"] ++ [toString 0])) true
       (setParsed nested_arrays "" initial))
    !! path_of (["a"] ++ [toString 1]) = Some true.
Proof.
  apply (open_similar_on_element (setParsed nested_arrays "" initial) ["a"]
           [JObject [("b", JArray [JObject [("x", JNumber 1)];
                                   JObject [("x", JNumber 2)]])];
            JObject [("b", JArray [JObject [("x", JNumber 3)];
                                   JObject [("x", JNumber 4)]])]]
           0 1).
  - reflexivity.
  - reflexivity.
  - eapply at_entry; [left; reflexivity|constructor].
  - repeat constructor.
  - cbn. lia.
  - cbn. lia.
Defined.

(** ** Parent paths *)

Lemma lastIndexOf_dot_no_dot s : no_dot s = true -> lastIndexOf_dot s = None.
Proof.
  induction s as [|c s IH]; cbn; [reflexivity|].
  intros [Hc Hs]%andb_prop. rewrite IH by assumption.
  apply negb_true_iff in Hc. now rewrite Hc.
Qed.

Lemma lastIndexOf_dot_append parent key :
  no_dot key = true ->
  lastIndexOf_dot (parent +:+ "." +:+ key) = Some (String.length parent).
Proof.
  intros Hkey. induction parent as [|c parent IH].
  - change ("" +:+ "." +:+ key) with (String "." key). cbn.
    now rewrite lastIndexOf_dot_no_dot.
  - rewrite append_cons. cbn [lastIndexOf_dot String.length]. now rewrite IH.
Qed.

Lemma substring_prefix a b : substring 0 (String.length a) (a +:+ b) = a.
Proof.
  induction a as [|c a IH]; cbn.
  - now destruct b.
  - rewrite append_cons. cbn. now rewrite IH.
Qed.

Lemma lastIndexOf_dot_split s i :
  lastIndexOf_dot s = Some i ->
  exists key, no_dot key = true /\ s = substring 0 i s +:+ "." +:+ key.
Proof.
  revert i. induction s as [|c s IH]; intros i; cbn [lastIndexOf_dot];
    [discriminate|].
  destruct (lastIndexOf_dot s) as [i'|] eqn:E.
  - intros [= <-]. destruct (IH i' eq_refl) as (key & Hkey & Hs).
    exists key. split; [assumption|]. cbn [substring].
    rewrite append_cons. now rewrite <- Hs.
  - destruct (Ascii.eqb_spec c ".") as [->|_]; [|discriminate].
    intros [= <-]. exists s. split.
    + clear IH. induction s as [|d s IHs]; [reflexivity|].
      cbn [lastIndexOf_dot] in E. cbn [no_dot].
      destruct (lastIndexOf_dot s); [discriminate|].
      destruct (Ascii.eqb d "."); [discriminate|]. now rewrite IHs.
    + cbn [substring]. now destruct s.
Qed.

(** X16: [getParentPath] undoes the path construction of the traversal:
    for a key without a dot, the parent path of [`${path}.${key}`] is
    [path], and a top-level path has none; and whenever [getParentPath]
    returns a parent, the path is that parent, a dot and a last segment
    without a dot. *)
Theorem getParentPath_of_child (parent key : string) :
  no_dot key = true ->
  getParentPath (child_path parent key)
  = (if is_empty parent then None else Some parent)
  /\ (forall p q, getParentPath p = Some q ->
        exists last, no_dot last = true /\ p = q +:+ "." +:+ last).
Proof.
  intros Hkey. split.
  - unfold getParentPath, child_path. destruct (is_empty parent).
    + now rewrite lastIndexOf_dot_no_dot.
    + rewrite lastIndexOf_dot_append by assumption.
      now rewrite substring_prefix.
  - intros p q. unfold getParentPath.
    destruct (lastIndexOf_dot p) as [i|] eqn:E; [|discriminate].
    intros [= <-]. now apply lastIndexOf_dot_split.
Qed.

Lemma getParentPath_of_child_witness :
  getParentPath (child_path "a.0" "b") = Some "a.0".
Proof.
  exact (proj1 (getParentPath_of_child "a.0" "b" eq_refl)).
Defined.

Lemma ascii_eqb_sym a b : Ascii.eqb a b = Ascii.eqb b a.
Proof.
  destruct (Ascii.eqb_spec a b) as [->|Hne].
  - symmetry. apply Ascii.eqb_refl.
  - symmetry. apply Ascii.eqb_neq. congruence.
Qed.

Lemma includes_dot s : includes s "." = negb (no_dot s).
Proof.
  induction s as [|c s IH]; [reflexivity|].
  cbn [includes startsWith no_dot]. rewrite IH, (ascii_eqb_sym "." c).
  assert (Hempty : startsWith s "" = true) by now destruct s.
  rewrite Hempty.
  destruct (Ascii.eqb c "."); cbn; [reflexivity|].
  now destruct (no_dot s).
Qed.

Lemma no_dot_single s : no_dot s = true <-> split s = [s].
Proof.
  split; [apply split_no_dot|]. intros Hsplit.
  pose proof (split_all_no_dot s) as Hall. rewrite Hsplit in Hall.
  now inversion Hall.
Qed.

(** X17: for an entry of a document with plain, distinct keys,
    [getParent] on the entry's path returns the entry's key together with
    the container holding the entry; for a top-level entry the parent is
    [null], not the document. *)
Theorem getParent_of_entry
    (doc : json) (segs : list string) (c : json) (k : string) (v : json) :
  plain_keys doc = true -> distinct_keys doc = true ->
  at_path doc segs c -> In (k, v) (entries c) ->
  getParent doc (path_of (segs ++ [k]))
  = (match segs with [] => Some JNull | _ => Some c end, k).
Proof.
  intros Hplain Hkeys Hat Hin.
  pose proof (at_path_plain _ _ _ Hplain (at_path_snoc _ _ _ _ _ Hat Hin))
    as Hall.
  assert (Hne : segs ++ [k] <> []) by now destruct segs.
  pose proof (split_path_of _ Hne Hall) as Hsplit.
  unfold getParent.
  rewrite (path_of_nonempty _ Hne Hall), includes_dot, Bool.negb_involutive.
  cbn [orb].
  destruct (no_dot (path_of (segs ++ [k]))) eqn:Hdot.
  - apply no_dot_single in Hdot. rewrite Hsplit in Hdot.
    destruct segs as [|k0 [|k1 segs]]; try discriminate. reflexivity.
  - cbv zeta. rewrite Hsplit, last_last, removelast_last.
    destruct segs as [|k0 segs].
    + cbn in Hdot. apply Forall_inv in Hall.
      apply plain_key_parts in Hall as [_ Hk]. unfold path_of in Hdot.
      cbn in Hdot. congruence.
    + rewrite <- path_of_join by (now apply Forall_app in Hall).
      now rewrite (resolve_chain doc (k0 :: segs) c).
Qed.

Lemma getParent_of_entry_witness :
  getParent nested_arrays (path_of (["a"; "1"] ++ ["b"]))
  = (Some (JObject [("b", JArray [JObject [("x", JNumber 3)];
                                  JObject [("x", JNumber 4)]])]), "b").
Proof.
  apply (getParent_of_entry nested_arrays ["a"; "1"]
           (JObject [("b", JArray [JObject [("x", JNumber 3)];
                                   JObject [("x", JNumber 4)]])])
           "b"
           (JArray [JObject [("x", JNumber 3)]; JObject [("x", JNumber 4)]])).
  - reflexivity.
  - reflexivity.
  - eapply at_entry; [left; reflexivity|].
    eapply at_entry; [right; left; reflexivity|constructor].
  - left. reflexivity.
Defined.

(** ** The pattern-based lookup *)

Lemma nth_error_lookup {A} (l : list A) i : nth_error l i = l !! i.
Proof.
  revert i. induction l as [|x l IH]; intros [|i]; cbn; try reflexivity.
  apply IH.
Qed.

Lemma keys_lookup (m : gmap string bool) q : q ∈ keys m <-> is_Some (m !! q).
Proof.
  unfold keys. rewrite list_elem_of_fmap. split.
  - intros [[k b] [-> Hin]]. apply elem_of_map_to_list in Hin. now exists b.
  - intros [b Hb]. exists (q, b). split; [reflexivity|].
    now apply elem_of_map_to_list.
Qed.

Lemma findSiblingArrayItems_In expanded p q :
  In q (findSiblingArrayItems expanded p) <->
  is_empty p = false
  /\ index_positions (split p) <> []
  /\ q ∈ keys expanded
  /\ q <> p
  /\ getNormalizedPattern q = getNormalizedPattern p
  /\ List.length (split q) = List.length (split p)
  /\ (forall i, (i < List.length (split p))%nat ->
        In i (index_positions (split p))
        \/ nth_error (split p) i = nth_error (split q) i).
Proof.
  unfold findSiblingArrayItems.
  destruct (is_empty p); [split; [intros []|intros [? _]; discriminate]|].
  destruct (index_positions (split p)) as [|first others] eqn:Hpositions;
    [split; [intros []|intros (_ & ? & _); congruence]|].
  assert (Hsome : index_positions (split p) <> [])
    by (rewrite Hpositions; discriminate).
  rewrite <- Hpositions. rewrite <- list_elem_of_In, list_elem_of_filter.
  rewrite !andb_True, negb_True.
  assert (Ha : Is_true (String.eqb q p) <-> q = p)
    by (rewrite Is_true_true; apply String.eqb_eq).
  assert (Hb : Is_true (String.eqb (getNormalizedPattern q)
                                   (getNormalizedPattern p))
               <-> getNormalizedPattern q = getNormalizedPattern p)
    by (rewrite Is_true_true; apply String.eqb_eq).
  assert (Hc : Is_true (List.length (split q) =? List.length (split p))%nat
               <-> List.length (split q) = List.length (split p))
    by (rewrite Is_true_true; apply Nat.eqb_eq).
  assert (Hd : Is_true (forallb (fun i =>
                  existsb (Nat.eqb i) (index_positions (split p))
                  || same_part (split p) (split q) i)
                  (seq 0 (List.length (split p))))
               <-> forall i, (i < List.length (split p))%nat ->
                     In i (index_positions (split p))
                     \/ nth_error (split p) i = nth_error (split q) i).
  { rewrite Is_true_true, forallb_forall. split.
    - intros Hall i Hi.
      assert (Hseq : In i (seq 0 (List.length (split p)))) by (apply in_seq; lia).
      apply Hall, Bool.orb_true_iff in Hseq as [Hex|Hsame].
      + left. apply existsb_exists in Hex as (x & Hx & Heq).
        apply Nat.eqb_eq in Heq. now subst x.
      + right. unfold same_part in Hsame.
        destruct (nth_error (split p) i), (nth_error (split q) i);
          try discriminate; [|reflexivity].
        apply String.eqb_eq in Hsame. now subst.
    - intros Hall i Hi%in_seq. apply Bool.orb_true_iff.
      destruct (Hall i) as [Hin|Hsame]; [lia| |].
      + left. apply existsb_exists. exists i.
        split; [assumption|apply Nat.eqb_refl].
      + right. unfold same_part. rewrite <- Hsame.
        destruct (nth_error (split p) i); [apply String.eqb_refl|reflexivity]. }
  rewrite Ha, Hb, Hc, Hd. intuition.
Qed.

Lemma pattern_of_replaced parts pos j :
  is_index (nth pos parts "") = true -> (pos < List.length parts)%nat ->
  map (fun part => if is_index part then "*" else part)
      (<[pos := toString j]> parts)
  = map (fun part => if is_index part then "*" else part) parts.
Proof.
  intros Hidx Hpos.
  change (map ?f ?l) with (f <$> l).
  rewrite list_fmap_insert, is_index_toString.
  apply list_insert_id. rewrite list_lookup_fmap.
  destruct (parts !! pos) as [part|] eqn:E.
  - rewrite (nth_lookup_Some _ _ _ _ E) in Hidx. cbn. now rewrite Hidx.
  - apply lookup_ge_None in E. lia.
Qed.

(** X18: the pattern-based lookup only returns paths that are keys of the
    ExpansionMap: each differs from [p], has the pattern and the number of
    segments of [p], and on an empty map there is none.  Within the map it
    is complete for array siblings: for a path without empty segments, the
    path with another index at one of its index positions is returned as
    soon as it is a key of the map. *)
Theorem findSimilarStructurePaths_known (expanded : gmap string bool) (p : string) :
  (forall q, In q (findSimilarStructurePaths expanded p) ->
     is_Some (expanded !! q) /\ q <> p
     /\ getNormalizedPattern q = getNormalizedPattern p
     /\ List.length (split q) = List.length (split p))
  /\ findSimilarStructurePaths ∅ p = []
  /\ (forall pos j,
        Forall (fun k => is_empty k = false) (split p) ->
        In pos (index_positions (split p)) ->
        is_Some (expanded !! getPathWithReplacedIndex p pos j) ->
        getPathWithReplacedIndex p pos j <> p ->
        In (getPathWithReplacedIndex p pos j)
           (findSimilarStructurePaths expanded p)).
Proof.
  assert (Hunfold : forall m, findSimilarStructurePaths m p
                              = findSiblingArrayItems m p).
  { intros m. unfold findSimilarStructurePaths, findSiblingArrayItems.
    now destruct (is_empty p). }
  split; [|split].
  - intros q. rewrite Hunfold, findSiblingArrayItems_In.
    intros (_ & _ & Hkey & Hne & Hpat & Hlen & _).
    apply keys_lookup in Hkey. auto.
  - rewrite Hunfold. unfold findSiblingArrayItems, keys.
    rewrite map_to_list_empty. destruct (is_empty p); [reflexivity|].
    now destruct (index_positions (split p)).
  - intros pos j Hall Hpos Hkey Hne.
    pose proof (index_positions_In _ _ Hpos) as [Hlen Hidx].
    rewrite Hunfold, findSiblingArrayItems_In.
    pose proof (replaced_index_parts p pos j Hall Hlen) as Hsplit.
    assert (Hp : is_empty p = false).
    { rewrite <- (join_split p). apply join_nonempty_list; [assumption|].
      apply split_nonempty. }
    assert (Hq : is_empty (getPathWithReplacedIndex p pos j) = false).
    { rewrite <- (join_split (getPathWithReplacedIndex p pos j)), Hsplit.
      apply join_nonempty_list; [now apply no_empty_segments_insert|].
      intros E. apply (f_equal (@List.length string)) in E.
      rewrite length_insert in E. rewrite E in Hlen. cbn in Hlen. lia. }
    repeat split.
    + exact Hp.
    + intros E. rewrite E in Hpos. destruct Hpos.
    + now apply keys_lookup.
    + exact Hne.
    + unfold getNormalizedPattern. rewrite Hp, Hq, Hsplit.
      now rewrite pattern_of_replaced.
    + rewrite Hsplit. apply length_insert.
    + intros i Hi. destruct (Nat.eq_dec i pos) as [->|Hother]; [now left|].
      right. rewrite Hsplit, !nth_error_lookup.
      symmetry. now apply list_lookup_insert_ne.
Qed.

Lemma findSimilarStructurePaths_known_witness :
  In (getPathWithReplacedIndex "a.0" 1 1)
     (findSimilarStructurePaths (expandedSections siblings_open) "a.0").
Proof.
  refine (proj2 (proj2 (findSimilarStructurePaths_known
            (expandedSections siblings_open) "a.0")) 1%nat 1%nat _ _ _ _).
  - repeat constructor.
  - vm_compute. tauto.
  - vm_compute. eexists. reflexivity.
  - vm_compute. discriminate.
Defined.

(** ** Clearing the input, and a new query *)

(** X19: when the input text is changed to a blank one, the document
    becomes absent without any error message and the match list becomes
    empty; the ExpansionMap and the cursor are left as they were. *)
Theorem blank_input_clears_document
    (JSON_parse : string -> ParseResult) (st : State) (text : string) :
  reachable JSON_parse st ->
  text <> jsonInput st ->
  is_empty (trim text) = true ->
  let st' := onJsonInput JSON_parse text st in
  parsedJson st' = JNull /\ error st' = ""
  /\ searchResults st' = []
  /\ expandedSections st' = expandedSections st
  /\ currentSearchIndex st' = currentSearchIndex st.
Proof.
  intros Hreach Hchange Hblank st'.
  destruct (reachable_consistent _ _ Hreach) as [Hdoc _].
  subst st'. unfold onJsonInput.
  destruct (String.eqb_spec text (jsonInput st)) as [|_]; [contradiction|].
  assert (Hst1 : parseEffect JSON_parse (withJsonInput text st)
                 = setParsed JNull "" (withJsonInput text st)).
  { unfold parseEffect. cbn [jsonInput withJsonInput]. now rewrite Hblank. }
  rewrite Hst1. cbn [parsedJson setParsed].
  destruct (same_value (parsedJson st) JNull) eqn:Hsame.
  - apply same_value_eq in Hsame. cbn. repeat split.
    apply Hdoc. now rewrite Hsame.
  - set (st1 := setParsed _ _ _).
    assert (Hrs : searchResults (searchEffect st1) = []).
    { rewrite searchEffect_results. cbn [parsedJson st1 setParsed truthy negb].
      now rewrite Bool.orb_true_r. }
    rewrite (navigationEffect_no_results _ Hrs).
    rewrite searchEffect_document, searchEffect_error, searchEffect_expanded,
      searchEffect_index.
    cbn [parsedJson st1 setParsed truthy negb]. rewrite Bool.orb_true_r.
    now repeat split.
Qed.

Lemma blank_input_clears_document_witness :
  let st' := onJsonInput sample_parse "  " two_matches in
  parsedJson st' = JNull /\ error st' = ""
  /\ searchResults st' = []
  /\ expandedSections st' = expandedSections two_matches
  /\ currentSearchIndex st' = currentSearchIndex two_matches.
Proof.
  apply (blank_input_clears_document sample_parse two_matches "  ").
  - exists [JsonInput "[[[]],[]]"; SearchQuery "0"]. reflexivity.
  - vm_compute. discriminate.
  - reflexivity.
Defined.


